(** * qs: struct <-> url.Values codecs, shallow embedding

    The development follows the Go package file by file:
    reflect values and types, the error types of errors.go, the
    []string codecs of marshal_strings.go / unmarshal_strings.go, the
    url.Values codecs of marshal_values.go / unmarshal_values.go and the
    factory caches of marshaler_cache.go / unmarshaler_cache.go.

    Go conventions kept by the embedding:
    - a []string is [option (list string)]: [None] is the nil slice,
      [Some []] an allocated empty one (the code tests [a == nil]);
    - a function returning [(x, error)] returns the pair, a nil error is
      [None]; a run-time panic (index out of range, nil interface
      conversion) is a separate result;
    - decoders mutate their destination through reflection: they take the
      destination value and return its new state together with the error,
      also when the error is not nil.

    Floating point kinds, time.Time and url.URL leaves and the map codecs
    (whose iteration order is unspecified) are outside the embedding. *)

From Stdlib Require Import ZArith String List Ascii DecimalString.
From stdpp Require Import base option list countable gmap strings fin_maps.

Local Open Scope string_scope.
Local Open Scope list_scope.
#[local] Set Warnings "-register-all".

(** ** reflect.Type and reflect.Value *)

Module Reflect.

(** Widths of the signed and unsigned integer kinds; [W0] is int / uint. *)
Inductive width := W0 | W8 | W16 | W32 | W64.

Inductive kind :=
| Bool | Int (w : width) | Uint (w : width) | String_ | Ptr | Slice | Array
| Map | Struct.

(** A struct type lists the name and type of each field in declaration
    order, as [t.NumField()] / [t.Field(i)] expose them. *)
Inductive rtype :=
| TBool
| TInt (w : width)
| TUint (w : width)
| TString
| TPtr (elem : rtype)
| TSlice (elem : rtype)
| TArray (len : nat) (elem : rtype)
| TMap (key elem : rtype)
| TStruct (name : string) (fields : list (string * rtype)).

Definition Kind (t : rtype) : kind :=
  match t with
  | TBool => Bool
  | TInt w => Int w
  | TUint w => Uint w
  | TString => String_
  | TPtr _ => Ptr
  | TSlice _ => Slice
  | TArray _ _ => Array
  | TMap _ _ => Map
  | TStruct _ _ => Struct
  end.

(** Induction on a type with the hypothesis for each field of a struct. *)
Section rtype_fields_ind.
Variable P : rtype -> Prop.
Hypothesis HBool : P TBool.
Hypothesis HInt : forall w, P (TInt w).
Hypothesis HUint : forall w, P (TUint w).
Hypothesis HString : P TString.
Hypothesis HPtr : forall e, P e -> P (TPtr e).
Hypothesis HSlice : forall e, P e -> P (TSlice e).
Hypothesis HArray : forall n e, P e -> P (TArray n e).
Hypothesis HMap : forall k e, P k -> P e -> P (TMap k e).
Hypothesis HStruct :
  forall n fs, Forall (fun f => P (snd f)) fs -> P (TStruct n fs).

Fixpoint rtype_fields_ind (t : rtype) : P t :=
  match t with
  | TBool => HBool
  | TInt w => HInt w
  | TUint w => HUint w
  | TString => HString
  | TPtr e => HPtr e (rtype_fields_ind e)
  | TSlice e => HSlice e (rtype_fields_ind e)
  | TArray n e => HArray n e (rtype_fields_ind e)
  | TMap k e => HMap k e (rtype_fields_ind k) (rtype_fields_ind e)
  | TStruct n fs =>
      HStruct n fs
        ((fix go (fs : list (string * rtype))
            : Forall (fun f => P (snd f)) fs :=
            match fs with
            | [] => Forall_nil_2 _
            | f :: fs' =>
                Forall_cons_2 _ f fs' (rtype_fields_ind (snd f)) (go fs')
            end) fs)
  end.
End rtype_fields_ind.

#[global] Instance width_eq_dec : EqDecision width.
Proof. solve_decision. Defined.

(** [t1 == t2] on reflect.Type: identical types are equal descriptors. *)
#[global] Instance rtype_eq_dec : EqDecision rtype.
Proof.
  refine (fix go (t1 t2 : rtype) {struct t1} : Decision (t1 = t2) :=
    match t1, t2 with
    | TBool, TBool => left _
    | TInt a, TInt b => cast_if (decide (a = b))
    | TUint a, TUint b => cast_if (decide (a = b))
    | TString, TString => left _
    | TPtr a, TPtr b => cast_if (go a b)
    | TSlice a, TSlice b => cast_if (go a b)
    | TArray n a, TArray m b => cast_if_and (decide (n = m)) (go a b)
    | TMap k a, TMap k' b => cast_if_and (go k k') (go a b)
    | TStruct n fs, TStruct m gs =>
        cast_if_and (decide (n = m))
          ((fix gol (fs gs : list (string * rtype)) {struct fs}
              : Decision (fs = gs) :=
              match fs, gs with
              | [], [] => left _
              | (x, a) :: fs', (y, b) :: gs' =>
                  cast_if_and3 (decide (x = y)) (go a b) (gol fs' gs')
              | _, _ => right _
              end) fs gs)
    | _, _ => right _
    end); clear go; try clear gol; congruence.
Defined.

(** A reflect.Type is a map key: types are countable. *)
Definition width_to_nat (w : width) : nat :=
  match w with W0 => 0 | W8 => 1 | W16 => 2 | W32 => 3 | W64 => 4 end.

Definition width_of_nat (n : nat) : width :=
  match n with 0 => W0 | 1 => W8 | 2 => W16 | 3 => W32 | _ => W64 end.

Fixpoint rtype_to_tree (t : rtype) : gen_tree (nat + string) :=
  match t with
  | TBool => GenNode 0 []
  | TInt w => GenNode 1 [GenLeaf (inl (width_to_nat w))]
  | TUint w => GenNode 2 [GenLeaf (inl (width_to_nat w))]
  | TString => GenNode 3 []
  | TPtr e => GenNode 4 [rtype_to_tree e]
  | TSlice e => GenNode 5 [rtype_to_tree e]
  | TArray n e => GenNode 6 [GenLeaf (inl n); rtype_to_tree e]
  | TMap k e => GenNode 7 [rtype_to_tree k; rtype_to_tree e]
  | TStruct n fs =>
      GenNode 8
        (GenLeaf (inr n) ::
         (fix go (fs : list (string * rtype))
            : list (gen_tree (nat + string)) :=
            match fs with
            | [] => []
            | (x, a) :: fs' => GenLeaf (inr x) :: rtype_to_tree a :: go fs'
            end) fs)
  end.

Fixpoint rtype_of_tree (g : gen_tree (nat + string)) : rtype :=
  match g with
  | GenNode 1 [GenLeaf (inl w)] => TInt (width_of_nat w)
  | GenNode 2 [GenLeaf (inl w)] => TUint (width_of_nat w)
  | GenNode 3 [] => TString
  | GenNode 4 [e] => TPtr (rtype_of_tree e)
  | GenNode 5 [e] => TSlice (rtype_of_tree e)
  | GenNode 6 [GenLeaf (inl n); e] => TArray n (rtype_of_tree e)
  | GenNode 7 [k; e] => TMap (rtype_of_tree k) (rtype_of_tree e)
  | GenNode 8 (GenLeaf (inr n) :: gs) =>
      TStruct n
        ((fix go (gs : list (gen_tree (nat + string)))
            : list (string * rtype) :=
            match gs with
            | GenLeaf (inr x) :: a :: gs' => (x, rtype_of_tree a) :: go gs'
            | _ => []
            end) gs)
  | _ => TBool
  end.

#[global] Instance rtype_countable : Countable rtype.
Proof.
  apply (inj_countable' rtype_to_tree rtype_of_tree).
  intros t. induction t using rtype_fields_ind; simpl; try congruence.
  - by destruct w.
  - by destruct w.
  - f_equal. induction H as [|[x a] fs Ha _ IH]; simpl in *; congruence.
Defined.

(** A value carries what is needed to recover its type: the element type
    of a pointer, slice, array or map and the declaration of a struct.
    A pointer is modelled by what it points to ([None] is nil), so two
    pointers are compared by content, never by identity. *)
Inductive value :=
| VBool (b : bool)
| VInt (w : width) (z : Z)
| VUint (w : width) (z : Z)
| VString (s : string)
| VPtr (elem : rtype) (p : option value)
| VSlice (elem : rtype) (s : option (list value))
| VArray (elem : rtype) (l : list value)
| VMap (key elem : rtype) (m : option (list (string * value)))
| VStruct (name : string) (decl : list (string * rtype)) (fs : list value).

(** [v.Type()] *)
Definition typeOf (v : value) : rtype :=
  match v with
  | VBool _ => TBool
  | VInt w _ => TInt w
  | VUint w _ => TUint w
  | VString _ => TString
  | VPtr e _ => TPtr e
  | VSlice e _ => TSlice e
  | VArray e l => TArray (length l) e
  | VMap k e _ => TMap k e
  | VStruct n d _ => TStruct n d
  end.

(** [reflect.Zero(t)], also what [reflect.New(t).Elem()] and the elements
    of [reflect.MakeSlice] hold. *)
Fixpoint zero (t : rtype) : value :=
  match t with
  | TBool => VBool false
  | TInt w => VInt w 0
  | TUint w => VUint w 0
  | TString => VString ""
  | TPtr e => VPtr e None
  | TSlice e => VSlice e None
  | TArray n e => VArray e (replicate n (zero e))
  | TMap k e => VMap k e None
  | TStruct n d =>
      VStruct n d
        ((fix zeros (d : list (string * rtype)) : list value :=
            match d with
            | [] => []
            | (_, t) :: d' => zero t :: zeros d'
            end) d)
  end.

(** [reflect.New(t)]: a non-nil pointer to a zero [t]. *)
Definition New (t : rtype) : value := VPtr t (Some (zero t)).

(** [reflect.MakeSlice(TSlice e, n, n)] *)
Definition MakeSlice (e : rtype) (n : nat) : value :=
  VSlice e (Some (replicate n (zero e))).

End Reflect.
Export Reflect.

(** ** []string *)

Definition strs := option (list string).

Definition len (a : strs) : nat :=
  match a with
  | None => 0
  | Some l => length l
  end.

(** ** reflect.Value accessors

    Each accessor returns [None] where reflect panics. *)

(** [v.Field(i)] *)
Definition Field (v : value) (i : nat) : option value :=
  match v with
  | VStruct _ _ fs => fs !! i
  | _ => None
  end.

(** [v.Field(i).Set(x)]: the in-place update of field [i]. *)
Definition SetField (v : value) (i : nat) (x : value) : value :=
  match v with
  | VStruct n d fs => VStruct n d (<[i := x]> fs)
  | _ => v
  end.

(** [t.Field(i).Name] *)
Definition FieldName (t : rtype) (i : nat) : option string :=
  match t with
  | TStruct _ d => fst <$> d !! i
  | _ => None
  end.

(** [v.IsNil()] *)
Definition IsNil (v : value) : option bool :=
  match v with
  | VPtr _ p => Some (bool_decide (p = None))
  | VSlice _ s => Some (bool_decide (s = None))
  | VMap _ _ m => Some (bool_decide (m = None))
  | _ => None
  end.

(** [v.Elem()] of a pointer. *)
Definition Elem (v : value) : option value :=
  match v with
  | VPtr _ p => p
  | _ => None
  end.

(** [v.Len()] *)
Definition Len (v : value) : option nat :=
  match v with
  | VString s => Some (String.length s)
  | VSlice _ s => Some (length (default [] s))
  | VArray _ l => Some (length l)
  | VMap _ _ m => Some (length (default [] m))
  | _ => None
  end.

(** [v.Index(i)] *)
Definition Index (v : value) (i : nat) : option value :=
  match v with
  | VSlice _ (Some l) => l !! i
  | VArray _ l => l !! i
  | VString s =>
      (fun c => VUint W8 (Z.of_nat (nat_of_ascii c))) <$> String.get i s
  | _ => None
  end.

(** [v.Index(i)] as a destination: the elements of a slice or an array
    can be set, the bytes of a string cannot. *)
Definition IndexAddr (v : value) (i : nat) : option value :=
  match v with
  | VSlice _ (Some l) => l !! i
  | VArray _ l => l !! i
  | _ => None
  end.

(** [v.Index(i).Set(x)]: the in-place update of element [i]. *)
Definition SetIndex (v : value) (i : nat) (x : value) : value :=
  match v with
  | VSlice e (Some l) => VSlice e (Some (<[i := x]> l))
  | VArray e l => VArray e (<[i := x]> l)
  | _ => v
  end.

(** ** errors.go *)

(** The text of an error is kept as the format it was built from and the
    arguments of that format. *)
Inductive error :=
| reqError (Message : message) (FieldName : string)
| wrongTypeError (Actual Expected : rtype)
| wrongKindError (Actual : rtype) (Expected : kind)
| unhandledTypeError (Type_ : rtype)
| errorString (Message : message)
| numError (Func Num : string)
with message :=
| Text (s : string)
| MissingRequiredField (name : string) (t : rtype)
| EmbeddedField (name : string) (cause : error)
| MarshalingEntry (name : string) (cause : error)
| MarshalingEmbeddedField (name : string) (cause : error)
| MarshalingIndex (i : nat) (cause : error)
| MarshalerReturnedLength (n i : nat)
| UnmarshalingEntry (name : string) (cause : error)
| UnmarshalingEmbeddedField (name : string) (cause : error)
| ArrayLength (got want : nat)
| UnmarshalingArrayIndex (i : nat) (cause : error)
| UnmarshalingSliceIndex (i : nat) (cause : error)
| SliceToStringLength (a : strs).

(** [fmt.Errorf] *)
Definition Errorf (m : message) : error := errorString m.

Definition IsRequiredFieldError (e : error) : string * bool :=
  match e with
  | reqError _ FieldName => (FieldName, true)
  | _ => ("", false)
  end.

(** What a call returning [(x, error)] gives back, or a panic. *)
Inductive ret (A : Type) :=
| Return (x : A) (err : option error)
| Panic.
Arguments Return {A} x err.
Arguments Panic {A}.

(** What a call returning only [error] gives back, or a panic. *)
Inductive outcome :=
| Done
| Failed (err : error)
| Panicked.

(** ** marshal.go, unmarshal.go: presence options *)

(** Modelled from the spec: the declaration of MarshalPresence (marshal.go)
    is not among the sources. The spec gives the marshal-presence policy
    the values Unspecified, KeepEmpty and OmitEmpty; the code names
    MPUnspecified and OmitEmpty. *)
Inductive MarshalPresence := MPUnspecified | KeepEmpty | OmitEmpty.

Inductive UnmarshalPresence := UPUnspecified | Opt | Nil | Req.

Definition MarshalPresence_eqb (a b : MarshalPresence) : bool :=
  match a, b with
  | MPUnspecified, MPUnspecified | KeepEmpty, KeepEmpty
  | OmitEmpty, OmitEmpty => true
  | _, _ => false
  end.

Definition UnmarshalPresence_eqb (a b : UnmarshalPresence) : bool :=
  match a, b with
  | UPUnspecified, UPUnspecified | Opt, Opt | Nil, Nil | Req, Req => true
  | _, _ => false
  end.

(** Modelled from the spec: the declaration of parsedTag is not among the
    sources. The codecs read [Tag.Name], [Tag.MarshalPresence] and
    [Tag.UnmarshalPresence], the wire key and the two presence policies
    of the spec's field descriptor; the two policies are the fields
    [TagMarshalPresence] and [TagUnmarshalPresence] here, apart from the
    types of the same names. *)
Record parsedTag := {
  Name : string;
  TagMarshalPresence : MarshalPresence;
  TagUnmarshalPresence : UnmarshalPresence
}.

(** ** marshal_strings.go *)

(** A value of the Marshaler interface: nil, or one of the implementations
    of the package. [marshalerFunc] stands for any other implementation: a
    type with its own Marshal method supplied through a custom factory. *)
Inductive Marshaler :=
| nilMarshaler
| marshalerFunc (f : value -> ret strs)
| primitiveMarshalerFunc (f : value -> string * option error)
| ptrMarshaler (Type_ : rtype) (ElemMarshaler : Marshaler)
| arrayAndSliceMarshaler (Type_ : rtype) (ElemMarshaler : Marshaler).

(** [strconv.FormatBool] *)
Definition FormatBool (b : bool) : string := if b then "true" else "false".

(** [strconv.FormatInt(z, 10)] and [strconv.FormatUint(z, 10)] *)
Definition FormatInt (z : Z) : string := NilZero.string_of_int (Z.to_int z).

Definition marshalString (v : value) : string * option error :=
  match v with
  | VString s => (s, None)
  | _ => ("", Some (wrongKindError (typeOf v) String_))
  end.

Definition marshalBool (v : value) : string * option error :=
  match v with
  | VBool b => (FormatBool b, None)
  | _ => ("", Some (wrongKindError (typeOf v) Bool))
  end.

Definition marshalInt (v : value) : string * option error :=
  match v with
  | VInt _ z => (FormatInt z, None)
  | _ => ("", Some (wrongKindError (typeOf v) (Int W0)))
  end.

Definition marshalUint (v : value) : string * option error :=
  match v with
  | VUint _ z => (FormatInt z, None)
  | _ => ("", Some (wrongKindError (typeOf v) (Uint W0)))
  end.

(** Modelled from the spec: the adapter that turns a scalar encoder (one
    value to one string) into a Marshaler is not among the sources. The
    spec gives every scalar a single-string encoding, so the adapter
    returns the one-element list holding the encoder's string and passes
    the encoder's error on. *)
Definition primitiveMarshal (f : value -> string * option error) (v : value)
  : ret strs :=
  match f v with
  | (_, Some err) => Return None (Some err)
  | (s, None) => Return (Some [s]) None
  end.

(** The loop of [arrayAndSliceMarshaler.Marshal]: [n] iterations are left,
    the next index is [i]; the result is what the loop stores in [a[i:]]. *)
Fixpoint marshalIndexes (f : value -> ret strs) (v : value) (n i : nat)
  : ret (list string) :=
  match n with
  | 0 => Return [] None
  | S n' =>
      match Index v i with
      | None => Panic
      | Some x =>
          match f x with
          | Panic => Panic
          | Return _ (Some err) =>
              Return [] (Some (Errorf (MarshalingIndex i err)))
          | Return a2 None =>
              match a2 with
              | Some [s] =>
                  match marshalIndexes f v n' (S i) with
                  | Return a None => Return (s :: a) None
                  | r => r
                  end
              | _ =>
                  Return [] (Some (Errorf (MarshalerReturnedLength (len a2) i)))
              end
          end
      end
  end.

Fixpoint Marshal (m : Marshaler) (v : value) {struct m} : ret strs :=
  match m with
  | nilMarshaler => Panic
  | marshalerFunc f => f v
  | primitiveMarshalerFunc f => primitiveMarshal f v
  | ptrMarshaler Type_ ElemMarshaler =>
      let t := typeOf v in
      if bool_decide (t <> Type_) then
        Return None (Some (wrongTypeError t Type_))
      else
        match IsNil v with
        | None => Panic
        | Some true => Return None None
        | Some false =>
            match Elem v with
            | None => Panic
            | Some x => Marshal ElemMarshaler x
            end
        end
  | arrayAndSliceMarshaler Type_ ElemMarshaler =>
      let t := typeOf v in
      if bool_decide (t <> Type_) then
        Return None (Some (wrongTypeError t Type_))
      else
        match Len v with
        | None => Panic
        | Some 0 => Return None None
        | Some vlen =>
            match marshalIndexes (Marshal ElemMarshaler) v vlen 0 with
            | Return a None => Return (Some a) None
            | Return _ (Some err) => Return None (Some err)
            | Panic => Panic
            end
        end
  end.

(** A MarshalerFactory, [Marshaler(t, opts)]: the options only carry the
    factories themselves and the defaults read when a struct codec is
    built, so a factory is the function of the type. *)
Definition MarshalerFactory := rtype -> Marshaler * option error.

Definition newPtrMarshaler (t : rtype) (factory : MarshalerFactory)
  : Marshaler * option error :=
  match t with
  | TPtr et =>
      match factory et with
      | (_, Some err) => (nilMarshaler, Some err)
      | (em, None) => (ptrMarshaler t em, None)
      end
  | _ => (nilMarshaler, Some (wrongKindError t Ptr))
  end.

Definition newArrayAndSliceMarshaler (t : rtype) (factory : MarshalerFactory)
  : Marshaler * option error :=
  match t with
  | TArray _ et | TSlice et =>
      match factory et with
      | (_, Some err) => (nilMarshaler, Some err)
      | (em, None) => (arrayAndSliceMarshaler t em, None)
      end
  | _ => (nilMarshaler, Some (wrongKindError t Array))
  end.

(** ** marshal_values.go *)

Record fieldMarshaler := {
  FieldIndex : nat;
  Marshaler_ : Marshaler;
  Tag : parsedTag
}.

(** A value of the ValuesMarshaler interface; [valuesMarshalerFunc] stands
    for the implementations not modelled here (the map codec, custom
    ones). A nil url.Values is [None]. *)
Inductive ValuesMarshaler :=
| nilValuesMarshaler
| valuesMarshalerFunc (f : value -> ret (option (gmap string strs)))
| structMarshaler (Type_ : rtype)
    (EmbeddedFields : list (nat * ValuesMarshaler))
    (Fields : list fieldMarshaler)
| ptrValuesMarshaler (Type_ : rtype) (ElemMarshaler : ValuesMarshaler).

Definition isEmpty (v : value) : bool :=
  match v with
  | VPtr _ p => bool_decide (p = None)
  | VBool b => negb b
  | VInt _ z => Z.eqb z 0
  | VUint _ z => Z.eqb z 0
  | VString s => Nat.eqb (String.length s) 0
  | VArray _ l => Nat.eqb (length l) 0
  | VSlice _ s => Nat.eqb (length (default [] s)) 0
  | VMap _ _ m => Nat.eqb (length (default [] m)) 0
  | VStruct _ _ _ => false
  end.

(** The first loop of [structMarshaler.MarshalValues], over [p.Fields],
    filling [vs]. *)
Fixpoint marshalFields (fs : list fieldMarshaler) (v : value)
    (vs : gmap string strs) : ret (gmap string strs) :=
  match fs with
  | [] => Return vs None
  | fm :: fs' =>
      match Field v (FieldIndex fm) with
      | None => Panic
      | Some fv =>
          if MarshalPresence_eqb (TagMarshalPresence (Tag fm)) OmitEmpty
             && isEmpty fv
          then marshalFields fs' v vs
          else
            match Marshal (Marshaler_ fm) fv with
            | Panic => Panic
            | Return _ (Some err) =>
                Return vs (Some (Errorf (MarshalingEntry (Name (Tag fm)) err)))
            | Return a None =>
                marshalFields fs' v
                  (if Nat.eqb (len a) 0 then vs else <[Name (Tag fm) := a]> vs)
            end
      end
  end.

(** [for k, a := range evs { vs[k] = a }] *)
Definition mergeValues (evs : option (gmap string strs))
    (vs : gmap string strs) : gmap string strs :=
  match evs with
  | None => vs
  | Some evs => evs ∪ vs
  end.

(** The second loop of [structMarshaler.MarshalValues], over
    [p.EmbeddedFields]; [encode] is the call of
    [ef.ValuesMarshaler.MarshalValues] and [t] the type of [v]. *)
Fixpoint marshalEmbedded {V : Type}
    (encode : V -> value -> ret (option (gmap string strs)))
    (t : rtype) (efs : list (nat * V)) (v : value) (vs : gmap string strs)
    {struct efs} : ret (option (gmap string strs)) :=
  match efs with
  | [] => Return (Some vs) None
  | (idx, vm) :: efs' =>
      match Field v idx with
      | None => Panic
      | Some fv =>
          match encode vm fv with
          | Panic => Panic
          | Return _ (Some err) =>
              match FieldName t idx with
              | None => Panic
              | Some name =>
                  Return None (Some (Errorf (MarshalingEmbeddedField name err)))
              end
          | Return evs None =>
              marshalEmbedded encode t efs' v (mergeValues evs vs)
          end
      end
  end.

Fixpoint MarshalValues (p : ValuesMarshaler) (v : value) {struct p}
  : ret (option (gmap string strs)) :=
  match p with
  | nilValuesMarshaler => Panic
  | valuesMarshalerFunc f => f v
  | structMarshaler Type_ EmbeddedFields Fields =>
      let t := typeOf v in
      if bool_decide (t <> Type_) then
        Return None (Some (wrongTypeError t Type_))
      else
        match marshalFields Fields v ∅ with
        | Panic => Panic
        | Return _ (Some err) => Return None (Some err)
        | Return vs None =>
            marshalEmbedded (fun vm fv => MarshalValues vm fv)
              t EmbeddedFields v vs
        end
  | ptrValuesMarshaler Type_ ElemMarshaler =>
      let t := typeOf v in
      if bool_decide (t <> Type_) then
        Return None (Some (wrongTypeError t Type_))
      else
        match IsNil v with
        | None => Panic
        | Some true => Return None None
        | Some false =>
            match Elem v with
            | None => Panic
            | Some x => MarshalValues ElemMarshaler x
            end
        end
  end.

(** ** unmarshal.go, unmarshal_strings.go *)

(** The part of UnmarshalOptions read while decoding. *)
Record UnmarshalOptions := {
  SliceToString : strs -> string * option error;
  DefaultUnmarshalPresence : UnmarshalPresence
}.

Definition defaultSliceToString (a : strs) : string * option error :=
  match a with
  | Some [s] => (s, None)
  | _ => ("", Some (Errorf (SliceToStringLength a)))
  end.

Definition defaultUnmarshalPresence : UnmarshalPresence := Opt.

(** The decoding half of [prepareUnmarshalOptions] applied to the zero
    UnmarshalOptions. *)
Definition defaultUnmarshalOptions : UnmarshalOptions :=
  {| SliceToString := defaultSliceToString;
     DefaultUnmarshalPresence := defaultUnmarshalPresence |}.

(** A value of the Unmarshaler interface: nil, or one of the
    implementations of the package; [unmarshalerFunc] stands for any other
    implementation. A decoder maps the destination to its new state. *)
Inductive Unmarshaler :=
| nilUnmarshaler
| unmarshalerFunc (f : value -> strs -> UnmarshalOptions -> value * outcome)
| primitiveUnmarshalerFunc
    (f : value -> string -> UnmarshalOptions -> value * outcome)
| ptrUnmarshaler (Type_ ElemType : rtype) (ElemUnmarshaler : Unmarshaler)
| arrayUnmarshaler (Type_ : rtype) (ElemUnmarshaler : Unmarshaler) (Len_ : nat)
| sliceUnmarshaler (Type_ : rtype) (ElemUnmarshaler : Unmarshaler).

Definition unmarshalString (v : value) (s : string) (opts : UnmarshalOptions)
  : value * outcome :=
  match v with
  | VString _ => (VString s, Done)
  | _ => (v, Failed (wrongKindError (typeOf v) String_))
  end.

(** [strconv.ParseBool] *)
Definition ParseBool (s : string) : bool * option error :=
  if existsb (String.eqb s) ["1"; "t"; "T"; "TRUE"; "true"; "True"] then
    (true, None)
  else if existsb (String.eqb s) ["0"; "f"; "F"; "FALSE"; "false"; "False"] then
    (false, None)
  else (false, Some (numError "ParseBool" s)).

Definition unmarshalBool (v : value) (s : string) (opts : UnmarshalOptions)
  : value * outcome :=
  match v with
  | VBool _ =>
      match ParseBool s with
      | (_, Some err) => (v, Failed err)
      | (b, None) => (VBool b, Done)
      end
  | _ => (v, Failed (wrongKindError (typeOf v) Bool))
  end.

(** Modelled from the spec: the adapter that turns a scalar decoder (one
    string to one value) into an Unmarshaler is not among the sources. By
    the spec the strings received for a scalar are merged by the
    configured collapse function (SliceToString) before they are handed to
    the scalar decoder, and a failure of the collapse is the error of the
    decode. The nil []string, which the struct decoder hands over for an
    absent key under Opt, leaves the value as it is: the documentation of
    Unmarshal in unmarshal.go has opt succeed and keep the original field
    value, and the pointer and array decoders return at once on it in
    the same way. *)
Definition primitiveUnmarshal
    (f : value -> string -> UnmarshalOptions -> value * outcome)
    (v : value) (a : strs) (opts : UnmarshalOptions) : value * outcome :=
  match a with
  | None => (v, Done)
  | Some _ =>
      match SliceToString opts a with
      | (_, Some err) => (v, Failed err)
      | (s, None) => f v s opts
      end
  end.

(** [for i := range a] of the array and slice decoders: [a] is what is
    left of the input, [i] the next index, [wrap] the message put around
    an element's error. *)
Fixpoint unmarshalIndexes
    (f : value -> strs -> value * outcome) (wrap : nat -> error -> message)
    (v : value) (a : list string) (i : nat) {struct a} : value * outcome :=
  match a with
  | [] => (v, Done)
  | s :: a' =>
      match IndexAddr v i with
      | None => (v, Panicked)
      | Some x =>
          let '(x', o) := f x (Some [s]) in
          let v' := SetIndex v i x' in
          match o with
          | Done => unmarshalIndexes f wrap v' a' (S i)
          | Failed err => (v', Failed (Errorf (wrap i err)))
          | Panicked => (v', Panicked)
          end
      end
  end.

Fixpoint Unmarshal (u : Unmarshaler) (v : value) (a : strs)
    (opts : UnmarshalOptions) {struct u} : value * outcome :=
  match u with
  | nilUnmarshaler => (v, Panicked)
  | unmarshalerFunc f => f v a opts
  | primitiveUnmarshalerFunc f => primitiveUnmarshal f v a opts
  | ptrUnmarshaler Type_ ElemType ElemUnmarshaler =>
      let t := typeOf v in
      if bool_decide (t <> Type_) then (v, Failed (wrongTypeError t Type_))
      else
        match a with
        | None => (v, Done)
        | Some _ =>
            match v with
            | VPtr e p =>
                if bool_decide (p = None) && bool_decide (ElemType <> e) then
                  (v, Panicked)
                else
                  let x := default (zero ElemType) p in
                  let '(x', o) := Unmarshal ElemUnmarshaler x a opts in
                  (VPtr e (Some x'), o)
            | _ => (v, Panicked)
            end
        end
  | arrayUnmarshaler Type_ ElemUnmarshaler Len_ =>
      let t := typeOf v in
      if bool_decide (t <> Type_) then (v, Failed (wrongTypeError t Type_))
      else
        match a with
        | None => (v, Done)
        | Some l =>
            if negb (Nat.eqb (length l) Len_) then
              (v, Failed (Errorf (ArrayLength (length l) Len_)))
            else
              unmarshalIndexes
                (fun x a => Unmarshal ElemUnmarshaler x a opts)
                UnmarshalingArrayIndex v l 0
        end
  | sliceUnmarshaler Type_ ElemUnmarshaler =>
      let t := typeOf v in
      if bool_decide (t <> Type_) then (v, Failed (wrongTypeError t Type_))
      else
        match IsNil v, v with
        | Some true, VSlice e _ =>
            unmarshalIndexes
              (fun x a => Unmarshal ElemUnmarshaler x a opts)
              UnmarshalingSliceIndex (MakeSlice e (len a)) (default [] a) 0
        | Some false, _ =>
            unmarshalIndexes
              (fun x a => Unmarshal ElemUnmarshaler x a opts)
              UnmarshalingSliceIndex v (default [] a) 0
        | _, _ => (v, Panicked)
        end
  end.

(** ** unmarshal_values.go *)

Record fieldUnmarshaler := {
  UFieldIndex : nat;
  Unmarshaler_ : Unmarshaler;
  UTag : parsedTag
}.

(** A value of the ValuesUnmarshaler interface; [valuesUnmarshalerFunc]
    stands for the implementations not modelled here. *)
Inductive ValuesUnmarshaler :=
| nilValuesUnmarshaler
| valuesUnmarshalerFunc
    (f : value -> gmap string strs -> UnmarshalOptions -> value * outcome)
| structUnmarshaler (Type_ : rtype)
    (EmbeddedFields : list (nat * ValuesUnmarshaler))
    (Fields : list fieldUnmarshaler)
| ptrValuesUnmarshaler (Type_ ElemType : rtype)
    (ElemUnmarshaler : ValuesUnmarshaler).

(** One iteration of the first loop of [structUnmarshaler.UnmarshalValues]
    on the struct [v] of type [t]. *)
Definition unmarshalField (t : rtype) (fum : fieldUnmarshaler)
    (v : value) (vs : gmap string strs) (opts : UnmarshalOptions)
  : value * outcome :=
  let name := Name (UTag fum) in
  let presence := TagUnmarshalPresence (UTag fum) in
  let decode (a : strs) :=
    match Field v (UFieldIndex fum) with
    | None => (v, Panicked)
    | Some fv =>
        let '(fv', o) := Unmarshal (Unmarshaler_ fum) fv a opts in
        let v' := SetField v (UFieldIndex fum) fv' in
        match o with
        | Failed err => (v', Failed (Errorf (UnmarshalingEntry name err)))
        | _ => (v', o)
        end
    end in
  match vs !! name with
  | None =>
      if UnmarshalPresence_eqb presence Req then
        (v, Failed (reqError (MissingRequiredField name t) name))
      else if UnmarshalPresence_eqb presence Nil then (v, Done)
      else decode None
  | Some a => decode a
  end.

(** The first loop of [structUnmarshaler.UnmarshalValues]. *)
Fixpoint unmarshalFields (t : rtype) (fums : list fieldUnmarshaler)
    (v : value) (vs : gmap string strs) (opts : UnmarshalOptions)
  : value * outcome :=
  match fums with
  | [] => (v, Done)
  | fum :: fums' =>
      match unmarshalField t fum v vs opts with
      | (v', Done) => unmarshalFields t fums' v' vs opts
      | r => r
      end
  end.

(** The second loop of [structUnmarshaler.UnmarshalValues], over
    [p.EmbeddedFields]; [decode] is the call of
    [ef.ValuesUnmarshaler.UnmarshalValues]. *)
Fixpoint unmarshalEmbedded {U : Type} (decode : U -> value -> value * outcome)
    (t : rtype) (efs : list (nat * U)) (v : value) {struct efs}
  : value * outcome :=
  match efs with
  | [] => (v, Done)
  | (idx, vum) :: efs' =>
      match Field v idx with
      | None => (v, Panicked)
      | Some fv =>
          let '(fv', o) := decode vum fv in
          let v' := SetField v idx fv' in
          match o with
          | Done => unmarshalEmbedded decode t efs' v'
          | Panicked => (v', Panicked)
          | Failed err =>
              match FieldName t idx with
              | None => (v', Panicked)
              | Some name =>
                  if snd (IsRequiredFieldError err) then
                    (v', Failed (reqError (EmbeddedField name err) name))
                  else
                    (v', Failed (Errorf (UnmarshalingEmbeddedField name err)))
              end
          end
      end
  end.

Fixpoint UnmarshalValues (p : ValuesUnmarshaler) (v : value)
    (vs : gmap string strs) (opts : UnmarshalOptions) {struct p}
  : value * outcome :=
  match p with
  | nilValuesUnmarshaler => (v, Panicked)
  | valuesUnmarshalerFunc f => f v vs opts
  | structUnmarshaler Type_ EmbeddedFields Fields =>
      let t := typeOf v in
      if bool_decide (t <> Type_) then (v, Failed (wrongTypeError t Type_))
      else
        match unmarshalFields t Fields v vs opts with
        | (v1, Done) =>
            unmarshalEmbedded
              (fun vum fv => UnmarshalValues vum fv vs opts)
              t EmbeddedFields v1
        | r => r
        end
  | ptrValuesUnmarshaler Type_ ElemType ElemUnmarshaler =>
      let t := typeOf v in
      if bool_decide (t <> Type_) then (v, Failed (wrongTypeError t Type_))
      else
        match v with
        | VPtr e p =>
            if bool_decide (p = None) && bool_decide (ElemType <> e) then
              (v, Panicked)
            else
              let x := default (zero ElemType) p in
              let '(x', o) := UnmarshalValues ElemUnmarshaler x vs opts in
              (VPtr e (Some x'), o)
        | _ => (v, Panicked)
        end
  end.

(** ** marshaler_cache.go, unmarshaler_cache.go, sync_map_legacy.go

    The four caches are the same code over the four codec interfaces. [M]
    is the type of the values of the codec interface, [isNil] tells its
    nil value [nilM] apart; [T] is the type of the keys (reflect.Type).
    The wrapped factory is any object with a state of its own: what it
    does when invoked, counting its invocations as the fakes of the cache
    tests do for instance, is a change of that state. *)

Module Cache.
Section Cache.
Context {T : Type} `{Countable T}.
Context {M : Type} (isNil : M -> bool) (nilM : M).
(** [asCodec err]: the error value [err] as a value of the codec
    interface, when its dynamic type implements that interface as well. *)
Context (asCodec : error -> option M).
Context {S : Type} (wrapped : S -> T -> S * (M * option error)).

(** What the map holds as interface{}: the codec or the error that was
    stored, or the nil interface that storing a nil codec leaves. *)
Inductive item :=
| itemNil
| itemCodec (m : M)
| itemError (err : error).

Definition ofCodec (m : M) : item :=
  if isNil m then itemNil else itemCodec m.

(** [m, ok := item.(M)]: a stored codec is a codec, a stored error is one
    when its dynamic type implements the codec interface too, the nil
    interface is none. *)
Definition assertCodec (it : item) : option M :=
  match it with
  | itemNil => None
  | itemCodec m => Some m
  | itemError err => asCodec err
  end.

Definition newSyncMap : gmap T item := ∅.

(** [(value, ok)] is [Some value] when [ok]. *)
Definition Load (o : gmap T item) (key : T) : option item := o !! key.

Definition Store (o : gmap T item) (key : T) (value : item) : gmap T item :=
  <[key := value]> o.

Record cacheOf := {
  wrappedState : S;
  cache : gmap T item
}.

Definition newCache (s : S) : cacheOf :=
  {| wrappedState := s; cache := newSyncMap |}.

(** The method of the cache: [Marshaler], [ValuesMarshaler],
    [Unmarshaler] or [ValuesUnmarshaler]. On a hit the item is tried as a
    codec first; [item.(error)] on what is left panics on the nil
    interface. *)
Definition lookupOrCreate (o : cacheOf) (t : T) : ret M * cacheOf :=
  match Load (cache o) t with
  | Some it =>
      match assertCodec it with
      | Some m => (Return m None, o)
      | None =>
          match it with
          | itemError err => (Return nilM (Some err), o)
          | _ => (Panic, o)
          end
      end
  | None =>
      let '(s', (m, err)) := wrapped (wrappedState o) t in
      let stored :=
        match err with
        | Some e => itemError e
        | None => ofCodec m
        end in
      (Return m err,
       {| wrappedState := s'; cache := Store (cache o) t stored |})
  end.

End Cache.
End Cache.

(** The four caches of the package. *)
Definition isNilMarshaler (m : Marshaler) : bool :=
  match m with nilMarshaler => true | _ => false end.

Definition isNilValuesMarshaler (m : ValuesMarshaler) : bool :=
  match m with nilValuesMarshaler => true | _ => false end.

Definition isNilUnmarshaler (u : Unmarshaler) : bool :=
  match u with nilUnmarshaler => true | _ => false end.

Definition isNilValuesUnmarshaler (u : ValuesUnmarshaler) : bool :=
  match u with nilValuesUnmarshaler => true | _ => false end.

Definition marshalerCache_Marshaler (asCodec : error -> option Marshaler)
    {S : Type} (wrapped : S -> rtype -> S * (Marshaler * option error)) :=
  Cache.lookupOrCreate isNilMarshaler nilMarshaler asCodec wrapped.

Definition valuesMarshalerCache_ValuesMarshaler
    (asCodec : error -> option ValuesMarshaler)
    {S : Type} (wrapped : S -> rtype -> S * (ValuesMarshaler * option error)) :=
  Cache.lookupOrCreate isNilValuesMarshaler nilValuesMarshaler asCodec wrapped.

Definition unmarshalerCache_Unmarshaler
    (asCodec : error -> option Unmarshaler)
    {S : Type} (wrapped : S -> rtype -> S * (Unmarshaler * option error)) :=
  Cache.lookupOrCreate isNilUnmarshaler nilUnmarshaler asCodec wrapped.

Definition valuesUnmarshalerCache_ValuesUnmarshaler
    (asCodec : error -> option ValuesUnmarshaler)
    {S : Type}
    (wrapped : S -> rtype -> S * (ValuesUnmarshaler * option error)) :=
  Cache.lookupOrCreate isNilValuesUnmarshaler nilValuesUnmarshaler asCodec
    wrapped.

(** * Vocabulary of the properties *)

(** The elements of a non-nil slice or of an array, and the same value
    around other elements. *)
Definition elems (v : value) : option (list value) :=
  match v with
  | VSlice _ (Some l) => Some l
  | VArray _ l => Some l
  | _ => None
  end.

Definition withElems (v : value) (l : list value) : value :=
  match v with
  | VSlice e (Some _) => VSlice e (Some l)
  | VArray e _ => VArray e l
  | _ => v
  end.

(** The same field entry around another decoder. *)
Definition withUnmarshaler (fum : fieldUnmarshaler) (u : Unmarshaler)
  : fieldUnmarshaler :=
  {| UFieldIndex := UFieldIndex fum; Unmarshaler_ := u; UTag := UTag fum |}.

(** The wire key of a field entry. *)
Definition MName (fm : fieldMarshaler) : string := Name (Tag fm).
Definition UName (fum : fieldUnmarshaler) : string := Name (UTag fum).

(** What the iteration for the entry [fm] leaves under its key, starting
    from [old]: nothing new when the field is skipped or encodes to no
    string, the encoding otherwise. *)
Definition fieldEntry (fm : fieldMarshaler) (fv : value) (old : option strs)
  : option strs :=
  if MarshalPresence_eqb (TagMarshalPresence (Tag fm)) OmitEmpty && isEmpty fv
  then old
  else
    match Marshal (Marshaler_ fm) fv with
    | Return a None => if Nat.eqb (len a) 0 then old else Some a
    | _ => old
    end.

(** The []string that the iteration for [fum] hands to the field's
    decoder, when it calls it. *)
Definition fieldInput (fum : fieldUnmarshaler) (vs : gmap string strs)
  : option strs :=
  match vs !! UName fum with
  | Some a => Some a
  | None =>
      match TagUnmarshalPresence (UTag fum) with
      | Req | Nil => None
      | _ => Some None
      end
  end.

(** The two entries built for one field: same position, same wire key. *)
Definition sameField (fm : fieldMarshaler) (fum : fieldUnmarshaler) : Prop :=
  FieldIndex fm = UFieldIndex fum /\ MName fm = UName fum.

(** The field holding [dx] ends up holding [x] when its key is absent. *)
Definition restoresAbsent (fum : fieldUnmarshaler) (dx x : value)
    (opts : UnmarshalOptions) : Prop :=
  match TagUnmarshalPresence (UTag fum) with
  | Req => False
  | Nil => dx = x
  | _ => Unmarshal (Unmarshaler_ fum) dx None opts = (x, Done)
  end.

(** The field value [x] comes back through the two entries of its field
    into a destination field holding [dx]. *)
Definition fieldRoundTrips (fm : fieldMarshaler) (fum : fieldUnmarshaler)
    (x dx : value) (opts : UnmarshalOptions) : Prop :=
  if MarshalPresence_eqb (TagMarshalPresence (Tag fm)) OmitEmpty && isEmpty x
  then restoresAbsent fum dx x opts
  else
    exists a,
      Marshal (Marshaler_ fm) x = Return a None
      /\ if Nat.eqb (len a) 0 then restoresAbsent fum dx x opts
         else Unmarshal (Unmarshaler_ fum) dx a opts = (x, Done).

(** What the iteration for [fum] needs to turn [dx] into [x]. *)
Definition fieldDecodesTo (fum : fieldUnmarshaler) (vs : gmap string strs)
    (dx x : value) (opts : UnmarshalOptions) : Prop :=
  match fieldInput fum vs with
  | Some a => Unmarshal (Unmarshaler_ fum) dx a opts = (x, Done)
  | None => TagUnmarshalPresence (UTag fum) = Nil /\ dx = x
  end.

(** * Worked records *)

Module Examples.

Definition stringMarshaler : Marshaler := primitiveMarshalerFunc marshalString.
Definition boolMarshaler : Marshaler := primitiveMarshalerFunc marshalBool.
Definition stringUnmarshaler : Unmarshaler :=
  primitiveUnmarshalerFunc unmarshalString.
Definition boolUnmarshaler : Unmarshaler :=
  primitiveUnmarshalerFunc unmarshalBool.

(** The entries built for a field: the encoder side resolves the marshal
    option and leaves the unmarshal option unspecified, the decoder side
    the other way round. *)
Definition fmEntry (i : nat) (m : Marshaler) (name : string)
    (mp : MarshalPresence) : fieldMarshaler :=
  {| FieldIndex := i; Marshaler_ := m;
     Tag := {| Name := name; TagMarshalPresence := mp;
               TagUnmarshalPresence := UPUnspecified |} |}.

Definition fumEntry (i : nat) (u : Unmarshaler) (name : string)
    (up : UnmarshalPresence) : fieldUnmarshaler :=
  {| UFieldIndex := i; Unmarshaler_ := u;
     UTag := {| Name := name; TagMarshalPresence := MPUnspecified;
                TagUnmarshalPresence := up |} |}.

(** type Query struct {
      Search     string
      Exact      bool
      Categories []string `qs:"category"`
    } *)
Definition QueryDecl : list (string * rtype) :=
  [("Search", TString); ("Exact", TBool); ("Categories", TSlice TString)].
Definition Query : rtype := TStruct "Query" QueryDecl.

Definition queryFields : list fieldMarshaler :=
  [fmEntry 0 stringMarshaler "search" KeepEmpty;
   fmEntry 1 boolMarshaler "exact" KeepEmpty;
   fmEntry 2 (arrayAndSliceMarshaler (TSlice TString) stringMarshaler)
     "category" KeepEmpty].

Definition queryUFields : list fieldUnmarshaler :=
  [fumEntry 0 stringUnmarshaler "search" Opt;
   fumEntry 1 boolUnmarshaler "exact" Opt;
   fumEntry 2 (sliceUnmarshaler (TSlice TString) stringUnmarshaler)
     "category" Opt].

Definition queryValues : list value :=
  [VString "my search"; VBool true;
   VSlice TString (Some [VString "c1"; VString "c2"])].

Definition queryZeros : list value :=
  [VString ""; VBool false; VSlice TString None].

(** type Dup struct {
      A string `qs:"x"`
      B string `qs:"x"`
    } *)
Definition DupDecl : list (string * rtype) := [("A", TString); ("B", TString)].
Definition Dup : rtype := TStruct "Dup" DupDecl.
Definition dupMarshaler : ValuesMarshaler :=
  structMarshaler Dup []
    [fmEntry 0 stringMarshaler "x" KeepEmpty;
     fmEntry 1 stringMarshaler "x" KeepEmpty].
Definition dupUnmarshaler : ValuesUnmarshaler :=
  structUnmarshaler Dup []
    [fumEntry 0 stringUnmarshaler "x" Opt;
     fumEntry 1 stringUnmarshaler "x" Opt].

(** type Tags struct {
      S []string `qs:"s,req"`
    } *)
Definition TagsDecl : list (string * rtype) := [("S", TSlice TString)].
Definition Tags : rtype := TStruct "Tags" TagsDecl.
Definition tagsMarshaler : ValuesMarshaler :=
  structMarshaler Tags []
    [fmEntry 0 (arrayAndSliceMarshaler (TSlice TString) stringMarshaler)
       "s" KeepEmpty].
Definition tagsUnmarshaler : ValuesUnmarshaler :=
  structUnmarshaler Tags []
    [fumEntry 0 (sliceUnmarshaler (TSlice TString) stringUnmarshaler)
       "s" Req].

(** type Login struct {
      User string `qs:"user,req"`
      Pass string `qs:"pass,req"`
    } *)
Definition LoginDecl : list (string * rtype) :=
  [("User", TString); ("Pass", TString)].
Definition Login : rtype := TStruct "Login" LoginDecl.
Definition loginUser : fieldUnmarshaler :=
  fumEntry 0 stringUnmarshaler "user" Req.
Definition loginPass : fieldUnmarshaler :=
  fumEntry 1 stringUnmarshaler "pass" Req.
Definition loginUnmarshaler : ValuesUnmarshaler :=
  structUnmarshaler Login [] [loginUser; loginPass].

(** type Opts struct {
      Name *string `qs:"name,keepempty"`
    } *)
Definition OptsDecl : list (string * rtype) := [("Name", TPtr TString)].
Definition Opts : rtype := TStruct "Opts" OptsDecl.
Definition optsName (mp : MarshalPresence) : fieldMarshaler :=
  fmEntry 0 (ptrMarshaler (TPtr TString) stringMarshaler) "name" mp.
Definition optsMarshaler (mp : MarshalPresence) : ValuesMarshaler :=
  structMarshaler Opts [] [optsName mp].

(** type Flag struct {
      On bool `qs:"on"`
    } with the marshal option of the field as a parameter *)
Definition FlagDecl : list (string * rtype) := [("On", TBool)].
Definition Flag : rtype := TStruct "Flag" FlagDecl.
Definition flagOn (mp : MarshalPresence) : fieldMarshaler :=
  fmEntry 0 boolMarshaler "on" mp.

(** type Form struct {
      Title string
      Done  bool
    } *)
Definition FormDecl : list (string * rtype) := [("Title", TString); ("Done", TBool)].
Definition Form : rtype := TStruct "Form" FormDecl.
Definition formTitle : fieldUnmarshaler :=
  fumEntry 0 stringUnmarshaler "title" Opt.
Definition formDone : fieldUnmarshaler := fumEntry 1 boolUnmarshaler "done" Opt.
Definition formUnmarshaler : ValuesUnmarshaler :=
  structUnmarshaler Form [] [formTitle; formDone].

(** type Row struct {
      Tags []string
      Pair [2]string
    } *)
Definition RowDecl : list (string * rtype) :=
  [("Tags", TSlice TString); ("Pair", TArray 2 TString)].
Definition Row : rtype := TStruct "Row" RowDecl.
Definition rowUnmarshaler : ValuesUnmarshaler :=
  structUnmarshaler Row []
    [fumEntry 0 (sliceUnmarshaler (TSlice TString) stringUnmarshaler)
       "tags" Opt;
     fumEntry 1 (arrayUnmarshaler (TArray 2 TString) stringUnmarshaler 2)
       "pair" Opt].

(** type Page struct {
      Cursor *string `qs:"cursor,nil"`
      Labels []string `qs:"labels"`
    } with the unmarshal option of the first field as a parameter *)
Definition PageDecl : list (string * rtype) :=
  [("Cursor", TPtr TString); ("Labels", TSlice TString)].
Definition Page : rtype := TStruct "Page" PageDecl.
Definition pageCursor (up : UnmarshalPresence) : fieldUnmarshaler :=
  fumEntry 0 (ptrUnmarshaler (TPtr TString) TString stringUnmarshaler)
    "cursor" up.
Definition pageLabels : fieldUnmarshaler :=
  fumEntry 1 (sliceUnmarshaler (TSlice TString) stringUnmarshaler) "labels" Opt.

(** A factory for strings and pointers to strings, and the fake factories
    of the cache tests: every request is answered with the same codec, or
    with the same error, and is appended to [calls], the state of the
    fake. *)
Definition stringsFactory : MarshalerFactory :=
  fun t =>
    match t with
    | TString => (stringMarshaler, None)
    | TPtr _ => newPtrMarshaler t (fun _ => (stringMarshaler, None))
    | _ => (nilMarshaler, Some (unhandledTypeError t))
    end.

Definition fakeMarshalerFactory (m : Marshaler) (err : option error)
  : list rtype -> rtype -> list rtype * (Marshaler * option error) :=
  fun calls t => (calls ++ [t], (m, err)).

(** The error values of the worked examples are of the error types of the
    package and of errors.New: none of them is a codec. *)
Definition noCodec {M : Type} : error -> option M := fun _ => None.

Definition testError : error := errorString (Text "test error").

(** The Query of the README:
    type Query struct {
      Search     string
      Page       int
      PageSize   int
      Categories []string `qs:"category"`
    } *)
Definition intMarshaler : Marshaler := primitiveMarshalerFunc marshalInt.
Definition ReadmeQueryDecl : list (string * rtype) :=
  [("Search", TString); ("Page", TInt W0); ("PageSize", TInt W0);
   ("Categories", TSlice TString)].
Definition ReadmeQuery : rtype := TStruct "Query" ReadmeQueryDecl.
Definition readmeQueryMarshaler : ValuesMarshaler :=
  structMarshaler ReadmeQuery []
    [fmEntry 0 stringMarshaler "search" KeepEmpty;
     fmEntry 1 intMarshaler "page" KeepEmpty;
     fmEntry 2 intMarshaler "page_size" KeepEmpty;
     fmEntry 3 (arrayAndSliceMarshaler (TSlice TString) stringMarshaler)
       "category" KeepEmpty].

(** type Base struct { ID string }
    type Item struct {
      Base
      Name string
    } *)
Definition BaseDecl : list (string * rtype) := [("ID", TString)].
Definition Base : rtype := TStruct "Base" BaseDecl.
Definition ItemDecl : list (string * rtype) := [("Base", Base); ("Name", TString)].
Definition Item : rtype := TStruct "Item" ItemDecl.
Definition itemMarshaler : ValuesMarshaler :=
  structMarshaler Item
    [(0, structMarshaler Base [] [fmEntry 0 stringMarshaler "id" KeepEmpty])]
    [fmEntry 1 stringMarshaler "name" KeepEmpty].
Definition itemUnmarshaler (up : UnmarshalPresence) : ValuesUnmarshaler :=
  structUnmarshaler Item
    [(0, structUnmarshaler Base [] [fumEntry 0 stringUnmarshaler "id" up])]
    [fumEntry 1 stringUnmarshaler "name" Opt].

End Examples.

(** * The rest of the codec files *)

(** ** unmarshal_strings.go, unmarshal_values.go, marshal_values.go:
       the constructors of the pointer and sequence codecs *)

(** An UnmarshalerFactory, [Unmarshaler(t, opts)], as the function of the
    type. *)
Definition UnmarshalerFactory := rtype -> Unmarshaler * option error.
Definition ValuesMarshalerFactory := rtype -> ValuesMarshaler * option error.
Definition ValuesUnmarshalerFactory :=
  rtype -> ValuesUnmarshaler * option error.

Definition newPtrUnmarshaler (t : rtype) (factory : UnmarshalerFactory)
  : Unmarshaler * option error :=
  match t with
  | TPtr et =>
      match factory et with
      | (_, Some err) => (nilUnmarshaler, Some err)
      | (eu, None) => (ptrUnmarshaler t et eu, None)
      end
  | _ => (nilUnmarshaler, Some (wrongKindError t Ptr))
  end.

Definition newArrayUnmarshaler (t : rtype) (factory : UnmarshalerFactory)
  : Unmarshaler * option error :=
  match t with
  | TArray n et =>
      match factory et with
      | (_, Some err) => (nilUnmarshaler, Some err)
      | (eu, None) => (arrayUnmarshaler t eu n, None)
      end
  | _ => (nilUnmarshaler, Some (wrongKindError t Array))
  end.

Definition newSliceUnmarshaler (t : rtype) (factory : UnmarshalerFactory)
  : Unmarshaler * option error :=
  match t with
  | TSlice et =>
      match factory et with
      | (_, Some err) => (nilUnmarshaler, Some err)
      | (eu, None) => (sliceUnmarshaler t eu, None)
      end
  | _ => (nilUnmarshaler, Some (wrongKindError t Slice))
  end.

Definition newPtrValuesMarshaler (t : rtype) (factory : ValuesMarshalerFactory)
  : ValuesMarshaler * option error :=
  match t with
  | TPtr et =>
      match factory et with
      | (_, Some err) => (nilValuesMarshaler, Some err)
      | (em, None) => (ptrValuesMarshaler t em, None)
      end
  | _ => (nilValuesMarshaler, Some (wrongKindError t Ptr))
  end.

Definition newPtrValuesUnmarshaler (t : rtype)
    (factory : ValuesUnmarshalerFactory)
  : ValuesUnmarshaler * option error :=
  match t with
  | TPtr et =>
      match factory et with
      | (_, Some err) => (nilValuesUnmarshaler, Some err)
      | (eu, None) => (ptrValuesUnmarshaler t et eu, None)
      end
  | _ => (nilValuesUnmarshaler, Some (wrongKindError t Ptr))
  end.

(** ** Values as the Go type system has them *)

(** What the type system guarantees of a reflect.Value: the element of a
    pointer, slice, array or map has the element type, a struct has one
    field of the declared type per declared field. *)
Fixpoint wellTyped (v : value) : bool :=
  match v with
  | VPtr e (Some x) => bool_decide (typeOf x = e) && wellTyped x
  | VSlice e (Some l) =>
      forallb (fun x => bool_decide (typeOf x = e) && wellTyped x) l
  | VArray e l =>
      forallb (fun x => bool_decide (typeOf x = e) && wellTyped x) l
  | VMap _ e (Some m) =>
      forallb (fun '(_, x) => bool_decide (typeOf x = e) && wellTyped x) m
  | VStruct _ d fs =>
      (fix fields (fs : list value) (d : list (string * rtype)) : bool :=
         match fs, d with
         | [], [] => true
         | x :: fs', (_, t) :: d' =>
             bool_decide (typeOf x = t) && wellTyped x && fields fs' d'
         | _, _ => false
         end) fs d
  | _ => true
  end.

(** No slice that a decoder would decode into in place is allocated: the
    slices reached through pointers, arrays and struct fields are nil. *)
Fixpoint slicesNil (v : value) : bool :=
  match v with
  | VPtr _ (Some x) => slicesNil x
  | VSlice _ (Some _) => false
  | VArray _ l => forallb slicesNil l
  | VStruct _ _ fs => forallb slicesNil fs
  | _ => true
  end.

(** The decoder [u] can be trusted with destinations of type [t]: on a
    destination of that type without allocated slices it does not panic
    and leaves a value of that type. *)
Definition decodesSafely (u : Unmarshaler) (t : rtype) : Prop :=
  forall v a opts,
    typeOf v = t -> wellTyped v = true -> slicesNil v = true ->
    (Unmarshal u v a opts).2 <> Panicked
    /\ typeOf (Unmarshal u v a opts).1 = t
    /\ wellTyped (Unmarshal u v a opts).1 = true.

(** The encoder [m] can be trusted with values of type [t]: it does not
    panic on them. *)
Definition encodesSafely (m : Marshaler) (t : rtype) : Prop :=
  forall v, typeOf v = t -> wellTyped v = true -> Marshal m v <> Panic.

(** ** Factories of scalar codecs for the worked examples *)

(** The scalar rows of a factory: string and bool decoders. *)
Definition scalarUnmarshalers : UnmarshalerFactory :=
  fun t =>
    match t with
    | TString => (primitiveUnmarshalerFunc unmarshalString, None)
    | TBool => (primitiveUnmarshalerFunc unmarshalBool, None)
    | _ => (nilUnmarshaler, Some (unhandledTypeError t))
    end.

(** The scalar rows of a factory: string, bool and integer encoders. *)
Definition scalarMarshalers : MarshalerFactory :=
  fun t =>
    match t with
    | TString => (primitiveMarshalerFunc marshalString, None)
    | TBool => (primitiveMarshalerFunc marshalBool, None)
    | TInt _ => (primitiveMarshalerFunc marshalInt, None)
    | TUint _ => (primitiveMarshalerFunc marshalUint, None)
    | _ => (nilMarshaler, Some (unhandledTypeError t))
    end.

(** type Left struct { ID string }
    type Right struct { ID string }
    type Both struct {
      Left
      Right
      ID string
    } *)
Definition LeftDecl : list (string * rtype) := [("ID", TString)].
Definition LeftT : rtype := TStruct "Left" LeftDecl.
Definition RightT : rtype := TStruct "Right" LeftDecl.
Definition BothDecl : list (string * rtype) :=
  [("Left", LeftT); ("Right", RightT); ("ID", TString)].
Definition Both : rtype := TStruct "Both" BothDecl.
Definition idEntry : fieldMarshaler :=
  Examples.fmEntry 0 Examples.stringMarshaler "id" KeepEmpty.
Definition leftMarshaler : ValuesMarshaler := structMarshaler LeftT [] [idEntry].
Definition rightMarshaler : ValuesMarshaler :=
  structMarshaler RightT [] [idEntry].
Definition bothValue : value :=
  VStruct "Both" BothDecl
    [VStruct "Left" LeftDecl [VString "a"];
     VStruct "Right" LeftDecl [VString "b"]; VString "c"].

(** ** Struct codecs on typed values *)

(** The ValuesUnmarshaler [p] can be trusted with destinations of type
    [t]: on a destination of that type without allocated slices it does
    not panic and leaves a value of that type. *)
Definition valuesDecodesSafely (p : ValuesUnmarshaler) (t : rtype) : Prop :=
  forall v vs opts,
    typeOf v = t -> wellTyped v = true -> slicesNil v = true ->
    (UnmarshalValues p v vs opts).2 <> Panicked
    /\ typeOf (UnmarshalValues p v vs opts).1 = t
    /\ wellTyped (UnmarshalValues p v vs opts).1 = true.

(** The ValuesMarshaler [p] can be trusted with values of type [t]. *)
Definition valuesEncodesSafely (p : ValuesMarshaler) (t : rtype) : Prop :=
  forall v, typeOf v = t -> wellTyped v = true -> MarshalValues p v <> Panic.

(** The fields [fs] of a struct value are of the types declared in [d]. *)
Definition typedFields (fs : list value) (d : list (string * rtype)) : Prop :=
  Forall2 (fun x ft => typeOf x = ft.2 /\ wellTyped x = true) fs d.

(** ** Runs of a cache *)

Section CacheRuns.
Context {T : Type} `{Countable T}.
Context {M : Type} (isNil : M -> bool) (nilM : M).
Context (asCodec : error -> option M).
Context {S : Type} (wrapped : S -> T -> S * (M * option error)).

(** The factory [wrapped] with a log of its invocations beside its state:
    an invocation appends the requested type, as the fake factories of
    the cache tests do with [calls]. *)
Definition logging : S * list T -> T -> (S * list T) * (M * option error) :=
  fun '(s, calls) t =>
    let '(s', r) := wrapped s t in ((s', calls ++ [t]), r).

(** The cache after the requests for the types [ts], one after the
    other. *)
Fixpoint requests (o : Cache.cacheOf) (ts : list T) : Cache.cacheOf :=
  match ts with
  | [] => o
  | t :: ts' =>
      requests (Cache.lookupOrCreate isNil nilM asCodec wrapped o t).2 ts'
  end.

End CacheRuns.

(** * Properties *)

(** ** The factory caches *)

Import Cache.

Section CacheProperties.
Context {T : Type} `{Countable T}.
Context {M : Type} (isNil : M -> bool) (nilM : M).
Context (asCodec : error -> option M).
Context {S : Type} (wrapped : S -> T -> S * (M * option error)).


End CacheProperties.

(** ** The element loop of the sequence decoders *)

Lemma IndexAddr_elems v l i : elems v = Some l -> IndexAddr v i = l !! i.
Proof. destruct v as [| | | | |? [?|]| | |]; simpl; congruence. Qed.

Lemma SetIndex_elems v l i x :
  elems v = Some l -> SetIndex v i x = withElems v (<[i := x]> l).
Proof. destruct v as [| | | | |? [?|]| | |]; simpl; congruence. Qed.

Lemma elems_withElems v l l' : elems v = Some l -> elems (withElems v l') = Some l'.
Proof. destruct v as [| | | | |? [?|]| | |]; simpl; congruence. Qed.

Lemma withElems_withElems v l l' :
  withElems (withElems v l) l' = withElems v l'.
Proof. by destruct v as [| | | | |? [?|]| | |]. Qed.

Lemma withElems_id v l : elems v = Some l -> withElems v l = v.
Proof. destruct v as [| | | | |? [?|]| | |]; simpl; congruence. Qed.

(** What the loop does to a sequence with elements [l], started at index
    [i] on the input [a]: the length never changes; only the indexes
    [i .. i + length a - 1] can change; it cannot complete when the input
    reaches past the end of the sequence; when it completes every element
    in its range holds what the element decoder made of it; and within
    the bounds of the sequence it panics only if an element decoder does. *)
Lemma unmarshalIndexes_elems f wrap a :
  forall v l i v' o,
    elems v = Some l ->
    unmarshalIndexes f wrap v a i = (v', o) ->
    exists l',
      v' = withElems v l'
      /\ length l' = length l
      /\ (forall j, j < i \/ i + length a <= j -> l' !! j = l !! j)
      /\ (i <= length l -> length l < i + length a -> o <> Done)
      /\ (o = Done ->
          forall j s x, a !! j = Some s -> l !! (i + j) = Some x ->
                        l' !! (i + j) = Some (f x (Some [s])).1)
      /\ (i + length a <= length l ->
          (forall x s, (f x (Some [s])).2 <> Panicked) -> o <> Panicked).
Proof.
  induction a as [|s a IH]; intros v l i v' o Hv Hrun; simpl in Hrun.
  - inversion Hrun; subst. exists l.
    rewrite (withElems_id _ _ Hv). simpl.
    split; [done|]. split; [done|]. split; [done|].
    split; [intros; lia|]. split; [|done].
    intros _ j s x Hj. by rewrite lookup_nil in Hj.
  - rewrite (IndexAddr_elems _ _ _ Hv) in Hrun.
    destruct (l !! i) as [x|] eqn:Hx.
    + destruct (f x (Some [s])) as [x' ox] eqn:Hf.
      rewrite (SetIndex_elems _ _ _ _ Hv) in Hrun.
      assert (Hi : i < length l) by (by eapply lookup_lt_Some).
      destruct ox as [|err|].
      * apply IH with (l := <[i := x']> l) in Hrun;
          [|by eapply elems_withElems].
        destruct Hrun as (l' & -> & Hlen & Hout & Hnd & Hin & Hnp).
        rewrite length_insert in Hlen, Hnd, Hnp.
        exists l'. rewrite withElems_withElems. simpl.
        split; [done|]. split; [done|]. split.
        { intros j Hj. rewrite Hout by lia.
          apply list_lookup_insert_ne. lia. }
        split; [intros; apply Hnd; lia|]. split.
        { intros Hd [|j] s0 x0 Ha Hl; simpl in Ha.
          - inversion Ha; subst s0. rewrite Nat.add_0_r in *.
            rewrite Hout by lia. rewrite list_lookup_insert_eq by done.
            rewrite Hx in Hl. inversion Hl; subst x0. by rewrite Hf.
          - replace (i + S j) with (S i + j) in * by lia.
            apply (Hin Hd j s0 x0 Ha).
            rewrite list_lookup_insert_ne by lia. done. }
        { intros Hb Hf'. apply Hnp; [lia | done]. }
      * inversion Hrun; subst. exists (<[i := x']> l).
        rewrite length_insert. simpl.
        split; [done|]. split; [done|]. split.
        { intros j Hj. apply list_lookup_insert_ne. lia. }
        split; [done|]. split; done.
      * inversion Hrun; subst. exists (<[i := x']> l).
        rewrite length_insert. simpl.
        split; [done|]. split; [done|]. split.
        { intros j Hj. apply list_lookup_insert_ne. lia. }
        split; [done|]. split; [done|].
        intros _ Hf'. specialize (Hf' x s). by rewrite Hf in Hf'.
    + inversion Hrun; subst. exists l. rewrite (withElems_id _ _ Hv).
      apply lookup_ge_None in Hx. simpl.
      split; [done|]. split; [done|]. split; [done|].
      split; [done|]. split; [done|]. intros; lia.
Qed.

Lemma type_check_passes (t : rtype) : bool_decide (t <> t) = false.
Proof. apply bool_decide_eq_false_2. intros Hne. by apply Hne. Qed.

Lemma length_default_strs (a : strs) : length (default [] a) = len a.
Proof. by destruct a. Qed.

(** ** sliceUnmarshaler.Unmarshal *)


(** The loop completes when every element it visits decodes. *)
Lemma unmarshalIndexes_done f wrap a :
  forall v l i,
    elems v = Some l ->
    i + length a <= length l ->
    (forall j s x, a !! j = Some s -> l !! (i + j) = Some x ->
                   (f x (Some [s])).2 = Done) ->
    (unmarshalIndexes f wrap v a i).2 = Done.
Proof.
  induction a as [|s a IH]; intros v l i Hv Hlen Hf; simpl; [done|].
  rewrite (IndexAddr_elems _ _ _ Hv).
  destruct (lookup_lt_is_Some_2 l i) as [x Hx]; [simpl in Hlen; lia|].
  rewrite Hx. specialize (Hf 0 s x eq_refl) as Hf0.
  rewrite Nat.add_0_r in Hf0. specialize (Hf0 Hx).
  destruct (f x (Some [s])) as [x' ox]. simpl in Hf0. subst ox.
  rewrite (SetIndex_elems _ _ _ _ Hv).
  apply IH with (l := <[i := x']> l).
  - by eapply elems_withElems.
  - rewrite length_insert. simpl in Hlen. lia.
  - intros j s0 x0 Ha Hl. apply (Hf (S j) s0 x0 Ha).
    rewrite list_lookup_insert_ne in Hl by lia.
    by replace (i + S j) with (S i + j) by lia.
Qed.

(** ** arrayUnmarshaler.Unmarshal and the length of decoded sequences *)

(** C4, as the code has it. An array decoder given a non-nil input whose
    length differs from the array length fails with the length error and
    leaves the array as it was, while a nil input is accepted and leaves
    the array as it was whatever its length. A slice decoder given a nil
    destination and any input yields an allocated slice with exactly one
    element per input string (an allocated empty slice for no string), and
    it succeeds when the element decoder succeeds on a zero element for
    every input string. *)
Theorem sequence_decoders_and_length
    (e : rtype) (eu : Unmarshaler) (d : list value) (a : strs)
    (opts : UnmarshalOptions) :
  (forall l, a = Some l -> length l <> length d ->
     Unmarshal (arrayUnmarshaler (TArray (length d) e) eu (length d))
       (VArray e d) a opts
     = (VArray e d, Failed (Errorf (ArrayLength (length l) (length d)))))
  /\ (a = None ->
      Unmarshal (arrayUnmarshaler (TArray (length d) e) eu (length d))
        (VArray e d) a opts
      = (VArray e d, Done))
  /\ (let '(v', o) :=
        Unmarshal (sliceUnmarshaler (TSlice e) eu) (VSlice e None) a opts in
      (exists l', v' = VSlice e (Some l') /\ length l' = len a)
      /\ ((forall x, x ∈ default [] a ->
             (Unmarshal eu (zero e) (Some [x]) opts).2 = Done) ->
          o = Done)).
Proof.
  split; [|split].
  - intros l -> Hne. cbn [Unmarshal typeOf]. rewrite type_check_passes.
    destruct (Nat.eqb_spec (length l) (length d)); [done|]. done.
  - intros ->. cbn [Unmarshal typeOf]. by rewrite type_check_passes.
  - cbn [Unmarshal typeOf]. rewrite type_check_passes. cbn [IsNil].
    rewrite bool_decide_eq_true_2 by done.
    destruct (unmarshalIndexes _ _ _ _ _) as [v' o] eqn:Hrun. split.
    + eapply unmarshalIndexes_elems in Hrun; [|reflexivity].
      destruct Hrun as (l' & -> & Hlen & _).
      rewrite length_replicate in Hlen. by exists l'.
    + intros Hf. change o with (v', o).2. rewrite <- Hrun.
      eapply unmarshalIndexes_done; [reflexivity| |].
      * rewrite length_replicate, length_default_strs. simpl. lia.
      * intros j s x Hs Hx. simpl in Hx.
        apply lookup_replicate in Hx as [-> _].
        apply Hf. by eapply list_elem_of_lookup_2.
Qed.

(** ** Fields of a struct value *)

Lemma Field_SetField_ne v i j x : i <> j -> Field (SetField v i x) j = Field v j.
Proof.
  intros Hne. destruct v; simpl; try done. by apply list_lookup_insert_ne.
Qed.

Lemma Field_SetField_eq v i x y :
  Field v i = Some y -> Field (SetField v i x) i = Some x.
Proof.
  destruct v; simpl; try done. intros Hy.
  apply list_lookup_insert_eq. by eapply lookup_lt_Some.
Qed.

Lemma typeOf_SetField v i x : typeOf (SetField v i x) = typeOf v.
Proof. by destruct v. Qed.

Lemma SetField_same v i x : Field v i = Some x -> SetField v i x = v.
Proof.
  destruct v; simpl; try done. intros Hx. f_equal. by apply list_insert_id.
Qed.

(** ** The loops of structUnmarshaler.UnmarshalValues *)

(** An iteration for a field leaves every other field as it was. *)
Lemma unmarshalField_other t fum v vs opts j :
  UFieldIndex fum <> j ->
  Field (unmarshalField t fum v vs opts).1 j = Field v j.
Proof.
  intros Hne. unfold unmarshalField.
  assert (Hdec : forall a,
    Field (match Field v (UFieldIndex fum) with
           | None => (v, Panicked)
           | Some fv =>
               let '(fv', o) := Unmarshal (Unmarshaler_ fum) fv a opts in
               (SetField v (UFieldIndex fum) fv',
                match o with
                | Failed err =>
                    Failed (Errorf (UnmarshalingEntry (Name (UTag fum)) err))
                | _ => o
                end)
           end).1 j = Field v j).
  { intros a. destruct (Field v (UFieldIndex fum)) as [fv|]; [|done].
    destruct (Unmarshal _ fv a opts) as [fv' o]. simpl.
    by apply Field_SetField_ne. }
  destruct (vs !! Name (UTag fum)) as [a|].
  - specialize (Hdec a).
    destruct (Field v (UFieldIndex fum)) as [fv|]; [|done].
    destruct (Unmarshal _ fv a opts) as [fv' [|err|]]; exact Hdec.
  - destruct (UnmarshalPresence_eqb _ Req); [done|].
    destruct (UnmarshalPresence_eqb _ Nil); [done|].
    specialize (Hdec None).
    destruct (Field v (UFieldIndex fum)) as [fv|]; [|done].
    destruct (Unmarshal _ fv None opts) as [fv' [|err|]]; exact Hdec.
Qed.

Lemma unmarshalField_typeOf t fum v vs opts :
  typeOf (unmarshalField t fum v vs opts).1 = typeOf v.
Proof.
  unfold unmarshalField.
  destruct (vs !! Name (UTag fum)) as [a|].
  - destruct (Field v (UFieldIndex fum)) as [fv|]; [|done].
    destruct (Unmarshal _ fv a opts) as [fv' [|err|]]; apply typeOf_SetField.
  - destruct (UnmarshalPresence_eqb _ Req); [done|].
    destruct (UnmarshalPresence_eqb _ Nil); [done|].
    destruct (Field v (UFieldIndex fum)) as [fv|]; [|done].
    destruct (Unmarshal _ fv None opts) as [fv' [|err|]]; apply typeOf_SetField.
Qed.

Lemma unmarshalFields_split t l1 fum l2 v vs opts :
  unmarshalFields t (l1 ++ fum :: l2) v vs opts =
  match unmarshalFields t l1 v vs opts with
  | (v1, Done) =>
      match unmarshalField t fum v1 vs opts with
      | (v2, Done) => unmarshalFields t l2 v2 vs opts
      | r => r
      end
  | r => r
  end.
Proof.
  revert v. induction l1 as [|f l1 IH]; intros v; simpl; [done|].
  destruct (unmarshalField t f v vs opts) as [v' [|err|]]; [apply IH|done|done].
Qed.

(** The loop over fields leaves alone the fields it has no entry for. *)
Lemma unmarshalFields_other t fums v vs opts j :
  j ∉ UFieldIndex <$> fums ->
  Field (unmarshalFields t fums v vs opts).1 j = Field v j.
Proof.
  revert v. induction fums as [|f fums IH]; intros v Hj; simpl; [done|].
  rewrite fmap_cons in Hj. apply not_elem_of_cons in Hj as [Hne Hj].
  pose proof (unmarshalField_other t f v vs opts j (not_eq_sym Hne)) as Hf.
  destruct (unmarshalField t f v vs opts) as [v' [|err|]]; simpl in *;
    [|done|done].
  by rewrite IH.
Qed.

Lemma unmarshalEmbedded_other {U} (decode : U -> value -> value * outcome)
    t efs v j :
  j ∉ fst <$> efs ->
  Field (unmarshalEmbedded decode t efs v).1 j = Field v j.
Proof.
  revert v. induction efs as [|[idx vum] efs IH]; intros v Hj; simpl; [done|].
  rewrite fmap_cons in Hj. apply not_elem_of_cons in Hj as [Hne Hj].
  simpl in Hne.
  destruct (Field v idx) as [fv|]; [|done].
  destruct (decode vum fv) as [fv' [|err|]]; simpl.
  - rewrite IH by done. by apply Field_SetField_ne.
  - destruct (FieldName t idx); [|by apply Field_SetField_ne].
    destruct (IsRequiredFieldError err).2; by apply Field_SetField_ne.
  - by apply Field_SetField_ne.
Qed.

Lemma unmarshalFields_app t l1 l2 v vs opts :
  unmarshalFields t (l1 ++ l2) v vs opts =
  match unmarshalFields t l1 v vs opts with
  | (v1, Done) => unmarshalFields t l2 v1 vs opts
  | r => r
  end.
Proof.
  revert v. induction l1 as [|f l1 IH]; intros v; simpl.
  - by destruct (unmarshalFields t l2 v vs opts) as [v' [|err|]].
  - destruct (unmarshalField t f v vs opts) as [v' [|err|]];
      [apply IH|done|done].
Qed.

(** ** Presence options of absent fields *)

(** C8. A field with the Nil option whose key is not in the input: its
    iteration returns at once with the struct as it was, so the decode is
    the decode by the same codec without that entry, whatever the field's
    decoder is (it is not invoked); and when no other entry of the codec
    addresses the same field position, the field holds after the decode,
    failed or not, what it held before. *)
Theorem nil_presence_leaves_absent_field_untouched
    (T : rtype) (efs : list (nat * ValuesUnmarshaler))
    (l1 l2 : list fieldUnmarshaler) (fum : fieldUnmarshaler)
    (v : value) (vs : gmap string strs) (opts : UnmarshalOptions) :
  TagUnmarshalPresence (UTag fum) = Nil ->
  vs !! Name (UTag fum) = None ->
  (forall t v0, unmarshalField t fum v0 vs opts = (v0, Done))
  /\ UnmarshalValues (structUnmarshaler T efs (l1 ++ fum :: l2)) v vs opts
     = UnmarshalValues (structUnmarshaler T efs (l1 ++ l2)) v vs opts
  /\ (forall u,
        UnmarshalValues (structUnmarshaler T efs (l1 ++ fum :: l2)) v vs opts
        = UnmarshalValues
            (structUnmarshaler T efs (l1 ++ withUnmarshaler fum u :: l2))
            v vs opts)
  /\ (UFieldIndex fum ∉ UFieldIndex <$> (l1 ++ l2) ->
      UFieldIndex fum ∉ fst <$> efs ->
      Field (UnmarshalValues (structUnmarshaler T efs (l1 ++ fum :: l2))
               v vs opts).1 (UFieldIndex fum)
      = Field v (UFieldIndex fum)).
Proof.
  intros Hnil Habsent.
  assert (Hstep : forall u t v0,
            unmarshalField t (withUnmarshaler fum u) v0 vs opts = (v0, Done)).
  { intros u t v0. unfold unmarshalField. simpl.
    by rewrite Habsent, Hnil. }
  assert (Hstep' : forall t v0, unmarshalField t fum v0 vs opts = (v0, Done)).
  { intros t v0. unfold unmarshalField. by rewrite Habsent, Hnil. }
  assert (Hskip : forall u t v0,
            unmarshalFields t (l1 ++ withUnmarshaler fum u :: l2) v0 vs opts
            = unmarshalFields t (l1 ++ l2) v0 vs opts).
  { intros u t v0. rewrite unmarshalFields_split, unmarshalFields_app.
    destruct (unmarshalFields t l1 v0 vs opts) as [v1 [|err|]]; [|done|done].
    by rewrite Hstep. }
  assert (Hskip' : forall t v0,
            unmarshalFields t (l1 ++ fum :: l2) v0 vs opts
            = unmarshalFields t (l1 ++ l2) v0 vs opts).
  { intros t v0. rewrite unmarshalFields_split, unmarshalFields_app.
    destruct (unmarshalFields t l1 v0 vs opts) as [v1 [|err|]]; [|done|done].
    by rewrite Hstep'. }
  assert (Hsame : UnmarshalValues (structUnmarshaler T efs (l1 ++ fum :: l2))
                    v vs opts
                  = UnmarshalValues (structUnmarshaler T efs (l1 ++ l2))
                      v vs opts).
  { cbn [UnmarshalValues]. by rewrite Hskip'. }
  split; [exact Hstep'|]. split; [exact Hsame|]. split.
  - intros u. rewrite Hsame. cbn [UnmarshalValues]. by rewrite Hskip.
  - intros Hfields Hefs. rewrite Hsame. cbn [UnmarshalValues].
    destruct (bool_decide (typeOf v <> T)); [done|].
    pose proof (unmarshalFields_other (typeOf v) (l1 ++ l2) v vs opts
                  _ Hfields) as Hf.
    destruct (unmarshalFields (typeOf v) (l1 ++ l2) v vs opts)
      as [v1 [|err|]]; simpl in Hf; [|done|done].
    by rewrite unmarshalEmbedded_other.
Qed.

(** What the decode by a struct codec leaves in the field of the entry
    [fum] when no other entry addresses that field: the prior value, or
    what the iteration for [fum] made of it; the latter when the decode
    returns no error. *)
Lemma struct_decode_field T efs l1 fum l2 v vs opts :
  UFieldIndex fum ∉ UFieldIndex <$> (l1 ++ l2) ->
  UFieldIndex fum ∉ fst <$> efs ->
  let r := UnmarshalValues (structUnmarshaler T efs (l1 ++ fum :: l2))
             v vs opts in
  exists v1,
    Field v1 (UFieldIndex fum) = Field v (UFieldIndex fum)
    /\ (Field r.1 (UFieldIndex fum) = Field v (UFieldIndex fum)
        \/ Field r.1 (UFieldIndex fum)
           = Field (unmarshalField (typeOf v) fum v1 vs opts).1
               (UFieldIndex fum))
    /\ (r.2 = Done ->
        (unmarshalField (typeOf v) fum v1 vs opts).2 = Done
        /\ Field r.1 (UFieldIndex fum)
           = Field (unmarshalField (typeOf v) fum v1 vs opts).1
               (UFieldIndex fum)).
Proof.
  intros Hfields Hefs. cbn zeta. cbn [UnmarshalValues].
  rewrite fmap_app in Hfields. apply not_elem_of_app in Hfields as [H1 H2].
  destruct (bool_decide (typeOf v <> T)).
  { exists v. split; [done|]. split; [by left|done]. }
  rewrite unmarshalFields_split.
  pose proof (unmarshalFields_other (typeOf v) l1 v vs opts _ H1) as Hl1.
  destruct (unmarshalFields (typeOf v) l1 v vs opts) as [v1 o1]. simpl in Hl1.
  exists v1. split; [done|].
  destruct o1 as [|err|]; [|split; [by left|done]..].
  destruct (unmarshalField (typeOf v) fum v1 vs opts) as [v2 o2] eqn:Hstep.
  simpl. destruct o2 as [|err|]; [|split; [by right|done]..].
  pose proof (unmarshalFields_other (typeOf v) l2 v2 vs opts _ H2) as Hl2.
  destruct (unmarshalFields (typeOf v) l2 v2 vs opts) as [v3 o3].
  simpl in Hl2. destruct o3 as [|err|]; simpl.
  - rewrite unmarshalEmbedded_other by done. rewrite Hl2.
    split; [by right|done].
  - rewrite Hl2. split; [by right|done].
  - rewrite Hl2. split; [by right|done].
Qed.

Lemma ptr_decoder_nil_input e et eu p opts :
  Unmarshal (ptrUnmarshaler (TPtr e) et eu) (VPtr e p) None opts
  = (VPtr e p, Done).
Proof. cbn [Unmarshal typeOf]. by rewrite type_check_passes. Qed.

Lemma slice_decoder_nil_destination_nil_input e eu opts :
  Unmarshal (sliceUnmarshaler (TSlice e) eu) (VSlice e None) None opts
  = (VSlice e (Some []), Done).
Proof.
  cbn [Unmarshal typeOf]. rewrite type_check_passes. cbn [IsNil].
  by rewrite bool_decide_eq_true_2.
Qed.

(** C9. A field with the Opt option whose key is not in the input: its
    iteration calls the field's decoder on the field with the nil
    []string. When no other entry of the codec addresses the same field
    position, a field decoded by a pointer decoder holds after the decode
    the pointer it held before (a nil pointer stays nil), and a nil slice
    field decoded by a slice decoder holds an allocated empty slice once
    the decode has returned without error. *)
Theorem opt_presence_decodes_absent_field_from_nil
    (T : rtype) (efs : list (nat * ValuesUnmarshaler))
    (l1 l2 : list fieldUnmarshaler) (fum : fieldUnmarshaler)
    (v : value) (vs : gmap string strs) (opts : UnmarshalOptions) :
  TagUnmarshalPresence (UTag fum) = Opt ->
  vs !! Name (UTag fum) = None ->
  UFieldIndex fum ∉ UFieldIndex <$> (l1 ++ l2) ->
  UFieldIndex fum ∉ fst <$> efs ->
  let r := UnmarshalValues (structUnmarshaler T efs (l1 ++ fum :: l2))
             v vs opts in
  (forall t v0 fv,
     Field v0 (UFieldIndex fum) = Some fv ->
     unmarshalField t fum v0 vs opts
     = (SetField v0 (UFieldIndex fum)
          (Unmarshal (Unmarshaler_ fum) fv None opts).1,
        match (Unmarshal (Unmarshaler_ fum) fv None opts).2 with
        | Failed err => Failed (Errorf (UnmarshalingEntry (Name (UTag fum)) err))
        | o => o
        end))
  /\ (forall e et eu p,
        Unmarshaler_ fum = ptrUnmarshaler (TPtr e) et eu ->
        Field v (UFieldIndex fum) = Some (VPtr e p) ->
        Field r.1 (UFieldIndex fum) = Some (VPtr e p))
  /\ (forall e eu,
        Unmarshaler_ fum = sliceUnmarshaler (TSlice e) eu ->
        Field v (UFieldIndex fum) = Some (VSlice e None) ->
        r.2 = Done ->
        Field r.1 (UFieldIndex fum) = Some (VSlice e (Some [])))
  /\ (forall t v0 e et eu p,
        Unmarshaler_ fum = ptrUnmarshaler (TPtr e) et eu ->
        Field v0 (UFieldIndex fum) = Some (VPtr e p) ->
        unmarshalField t fum v0 vs opts = (v0, Done))
  /\ (forall t v0 e eu,
        Unmarshaler_ fum = sliceUnmarshaler (TSlice e) eu ->
        Field v0 (UFieldIndex fum) = Some (VSlice e None) ->
        unmarshalField t fum v0 vs opts
        = (SetField v0 (UFieldIndex fum) (VSlice e (Some [])), Done)).
Proof.
  intros Hopt Habsent Hfields Hefs r.
  assert (Hstep : forall t v0 fv,
     Field v0 (UFieldIndex fum) = Some fv ->
     unmarshalField t fum v0 vs opts
     = (SetField v0 (UFieldIndex fum)
          (Unmarshal (Unmarshaler_ fum) fv None opts).1,
        match (Unmarshal (Unmarshaler_ fum) fv None opts).2 with
        | Failed err => Failed (Errorf (UnmarshalingEntry (Name (UTag fum)) err))
        | o => o
        end)).
  { intros t v0 fv Hfv. unfold unmarshalField.
    rewrite Habsent, Hopt, Hfv. simpl.
    by destruct (Unmarshal (Unmarshaler_ fum) fv None opts) as [fv' [|err|]]. }
  destruct (struct_decode_field T efs l1 fum l2 v vs opts Hfields Hefs)
    as (v1 & Hv1 & Hcases & Hdone).
  fold r in Hcases, Hdone.
  split; [exact Hstep|]. split.
  - intros e et eu p Hu Hfv. rewrite Hfv in Hv1, Hcases.
    destruct Hcases as [->| ->]; [done|].
    rewrite (Hstep _ _ _ Hv1), Hu, ptr_decoder_nil_input. simpl.
    by eapply Field_SetField_eq.
  - split; [|split].
    + intros e eu Hu Hfv Hr. rewrite Hfv in Hv1.
      destruct (Hdone Hr) as [_ ->].
      rewrite (Hstep _ _ _ Hv1), Hu, slice_decoder_nil_destination_nil_input.
      simpl. by eapply Field_SetField_eq.
    + intros t v0 e et eu p Hu Hfv.
      rewrite (Hstep _ _ _ Hfv), Hu, ptr_decoder_nil_input. simpl.
      by rewrite SetField_same.
    + intros t v0 e eu Hu Hfv.
      by rewrite (Hstep _ _ _ Hfv), Hu, slice_decoder_nil_destination_nil_input.
Qed.

(** ** Required fields *)

(** A required-field error of an iteration is the one for its own entry:
    the entry has the Req option and its key is absent. *)
Lemma unmarshalField_reqError t fum v vs opts v' err :
  unmarshalField t fum v vs opts = (v', Failed err) ->
  (IsRequiredFieldError err).2 = true ->
  TagUnmarshalPresence (UTag fum) = Req
  /\ vs !! Name (UTag fum) = None
  /\ err = reqError (MissingRequiredField (Name (UTag fum)) t) (Name (UTag fum))
  /\ v' = v.
Proof.
  unfold unmarshalField. intros Hrun Hreq.
  destruct (vs !! Name (UTag fum)) as [a|].
  - destruct (Field v (UFieldIndex fum)) as [fv|]; [|done].
    destruct (Unmarshal _ fv a opts) as [fv' [|e|]]; inversion Hrun; subst.
    done.
  - destruct (TagUnmarshalPresence (UTag fum)) eqn:Hp; simpl in Hrun;
      try (destruct (Field v (UFieldIndex fum)) as [fv|]; [|done];
           destruct (Unmarshal _ fv None opts) as [fv' [|e|]];
           inversion Hrun; subst; done).
    + done.
    + by inversion Hrun.
Qed.

Lemma unmarshalFields_reqError t fums v vs opts v' err :
  unmarshalFields t fums v vs opts = (v', Failed err) ->
  (IsRequiredFieldError err).2 = true ->
  exists fum, fum ∈ fums
    /\ TagUnmarshalPresence (UTag fum) = Req
    /\ vs !! Name (UTag fum) = None
    /\ (IsRequiredFieldError err).1 = Name (UTag fum).
Proof.
  revert v. induction fums as [|f fums IH]; intros v Hrun Hreq; simpl in Hrun.
  { by inversion Hrun. }
  destruct (unmarshalField t f v vs opts) as [v1 [|e|]] eqn:Hstep.
  - destruct (IH _ Hrun Hreq) as (fum & Hin & Hrest).
    exists fum. split; [apply elem_of_cons; by right|done].
  - inversion Hrun; subst.
    destruct (unmarshalField_reqError _ _ _ _ _ _ _ Hstep Hreq)
      as (Hp & Habs & -> & _).
    exists f. split; [apply elem_of_cons; by left|done].
  - by inversion Hrun.
Qed.

Lemma unmarshalEmbedded_reqError {U} (decode : U -> value -> value * outcome)
    t efs v v' err :
  unmarshalEmbedded decode t efs v = (v', Failed err) ->
  (IsRequiredFieldError err).2 = true ->
  exists idx, idx ∈ fst <$> efs
    /\ FieldName t idx = Some (IsRequiredFieldError err).1.
Proof.
  revert v. induction efs as [|[idx vum] efs IH]; intros v Hrun Hreq;
    simpl in Hrun.
  { by inversion Hrun. }
  destruct (Field v idx) as [fv|]; [|by inversion Hrun].
  destruct (decode vum fv) as [fv' [|e|]].
  - destruct (IH _ Hrun Hreq) as (i & Hin & Hname).
    exists i. split; [|done]. rewrite fmap_cons. apply elem_of_cons. by right.
  - destruct (FieldName t idx) as [name|] eqn:Hname; [|by inversion Hrun].
    destruct (IsRequiredFieldError e).2; inversion Hrun; subst; [|done].
    exists idx. split; [|done]. rewrite fmap_cons. apply elem_of_cons. by left.
  - by inversion Hrun.
Qed.

(** C3, as the code has it. A struct codec with an entry [fum] that has
    the Req option. When the key of [fum] is not in the input the decode
    does not succeed, and when the entries before [fum] decode without
    error it fails with the required-field error that carries the key of
    [fum], which IsRequiredFieldError returns. When the key is in the
    input, whatever it maps to, the iteration for [fum] returns no
    required-field error, and a required-field error of the whole decode
    names an entry with the Req option whose own key is absent or the
    field of a flattened sub-record. *)
Theorem req_presence_reports_first_missing_key
    (T : rtype) (efs : list (nat * ValuesUnmarshaler))
    (l1 l2 : list fieldUnmarshaler) (fum : fieldUnmarshaler)
    (v : value) (vs : gmap string strs) (opts : UnmarshalOptions) :
  TagUnmarshalPresence (UTag fum) = Req ->
  let r := UnmarshalValues (structUnmarshaler T efs (l1 ++ fum :: l2))
             v vs opts in
  (vs !! Name (UTag fum) = None ->
     r.2 <> Done
     /\ (typeOf v = T ->
         forall v1, unmarshalFields T l1 v vs opts = (v1, Done) ->
         r = (v1, Failed (reqError (MissingRequiredField (Name (UTag fum)) T)
                            (Name (UTag fum))))
         /\ forall err, r.2 = Failed err ->
              IsRequiredFieldError err = (Name (UTag fum), true)))
  /\ (is_Some (vs !! Name (UTag fum)) ->
      (forall t v0 err,
         (unmarshalField t fum v0 vs opts).2 = Failed err ->
         (IsRequiredFieldError err).2 = false)
      /\ (forall err,
            r.2 = Failed err -> (IsRequiredFieldError err).2 = true ->
            (exists fum', fum' ∈ l1 ++ l2
               /\ TagUnmarshalPresence (UTag fum') = Req
               /\ vs !! Name (UTag fum') = None
               /\ (IsRequiredFieldError err).1 = Name (UTag fum'))
            \/ (exists idx, idx ∈ fst <$> efs
                  /\ FieldName T idx = Some (IsRequiredFieldError err).1))).
Proof.
  intros Hreq r. split.
  - intros Habsent.
    assert (Hstep : forall t v0,
              unmarshalField t fum v0 vs opts
              = (v0, Failed (reqError (MissingRequiredField (Name (UTag fum)) t)
                               (Name (UTag fum))))).
    { intros t v0. unfold unmarshalField. by rewrite Habsent, Hreq. }
    split.
    + subst r. cbn [UnmarshalValues].
      destruct (bool_decide (typeOf v <> T)); [done|].
      rewrite unmarshalFields_split.
      destruct (unmarshalFields (typeOf v) l1 v vs opts) as [v1 [|err|]];
        [|done|done].
      by rewrite Hstep.
    + intros HT v1 Hl1.
      assert (Hr : r = (v1, Failed (reqError
                                      (MissingRequiredField (Name (UTag fum)) T)
                                      (Name (UTag fum))))).
      { subst r. cbn [UnmarshalValues]. rewrite HT, type_check_passes.
        by rewrite unmarshalFields_split, Hl1, Hstep. }
      split; [exact Hr|]. intros err. rewrite Hr. simpl.
      intros Herr. by inversion Herr.
  - intros [a Ha]. split.
    + intros t v0 err Hrun.
      destruct (IsRequiredFieldError err).2 eqn:Hq; [|done].
      destruct (unmarshalField t fum v0 vs opts) as [v' o] eqn:Hstep.
      simpl in Hrun. subst o.
      destruct (unmarshalField_reqError _ _ _ _ _ _ _ Hstep Hq)
        as (_ & Habs & _). congruence.
    + intros err Hr Hq. subst r. cbn [UnmarshalValues] in Hr.
      destruct (bool_decide (typeOf v <> T)) eqn:HT.
      { simpl in Hr. inversion Hr; subst. done. }
      apply bool_decide_eq_false in HT. apply dec_stable in HT.
      destruct (unmarshalFields (typeOf v) (l1 ++ fum :: l2) v vs opts)
        as [v1 o1] eqn:Hfields.
      destruct o1 as [|e|].
      * destruct (unmarshalEmbedded _ _ _ _) as [v2 o2] eqn:Hemb.
        simpl in Hr. subst o2.
        destruct (unmarshalEmbedded_reqError _ _ _ _ _ _ Hemb Hq)
          as (idx & Hin & Hname).
        right. exists idx. by rewrite <- HT.
      * simpl in Hr. inversion Hr; subst e.
        destruct (unmarshalFields_reqError _ _ _ _ _ _ _ Hfields Hq)
          as (fum' & Hin & Hp & Habs & Hname).
        left. exists fum'. split; [|done].
        apply elem_of_app in Hin as [Hin|Hin]; [set_solver|].
        apply elem_of_cons in Hin as [->|Hin]; [congruence|set_solver].
      * done.
Qed.

(** ** arrayAndSliceMarshaler *)

Lemma Index_elems v l i : elems v = Some l -> Index v i = l !! i.
Proof. destruct v as [| | | | |? [?|]| | |]; simpl; congruence. Qed.

Lemma Len_elems v l : elems v = Some l -> Len v = Some (length l).
Proof.
  destruct v as [| | | | |? [?|]| | |]; simpl; try congruence;
    intros Heq; by inversion Heq.
Qed.

(** The encoding loop stops at the first element whose encoder returns,
    without error, a number of strings other than one. *)
Lemma marshalIndexes_wrong_length f v l k x a2 :
  elems v = Some l ->
  (forall j y, j < k -> l !! j = Some y ->
               exists s, f y = Return (Some [s]) None) ->
  l !! k = Some x ->
  f x = Return a2 None ->
  len a2 <> 1 ->
  forall n i, i <= k < i + n ->
    marshalIndexes f v n i
    = Return [] (Some (Errorf (MarshalerReturnedLength (len a2) k))).
Proof.
  intros Hv Hbefore Hx Hfx Hlen.
  induction n as [|n IH]; intros i Hi; [lia|]. simpl.
  rewrite (Index_elems _ _ _ Hv).
  destruct (decide (i = k)) as [->|Hne].
  - rewrite Hx, Hfx. destruct a2 as [[|s [|s' a2]]|]; simpl in *; try done.
  - destruct (lookup_lt_is_Some_2 l i) as [y Hy].
    { apply lookup_lt_Some in Hx. lia. }
    rewrite Hy. destruct (Hbefore i y ltac:(lia) Hy) as [s ->].
    by rewrite IH by lia.
Qed.

(** C7, as the code has it. Building the codec of an array or slice type
    succeeds whenever the factory resolves the element type: what the
    element codec returns is not examined. It is the encode call that
    fails, at the first element for which the element codec returns,
    without error, a number of strings other than one, with the error
    giving that number and the index. A sequence without elements encodes
    to the nil []string. *)
Theorem sequence_element_arity_checked_by_encode :
  (forall (factory : MarshalerFactory) t et em,
     t = TSlice et \/ (exists n, t = TArray n et) ->
     factory et = (em, None) ->
     newArrayAndSliceMarshaler t factory = (arrayAndSliceMarshaler t em, None))
  /\ (forall em v l1 x l2 a2,
        elems v = Some (l1 ++ x :: l2) ->
        (forall y, y ∈ l1 -> exists s, Marshal em y = Return (Some [s]) None) ->
        Marshal em x = Return a2 None ->
        len a2 <> 1 ->
        Marshal (arrayAndSliceMarshaler (typeOf v) em) v
        = Return None
            (Some (Errorf (MarshalerReturnedLength (len a2) (length l1)))))
  /\ (forall em v,
        Len v = Some 0 ->
        Marshal (arrayAndSliceMarshaler (typeOf v) em) v = Return None None).
Proof.
  split; [|split].
  - intros factory t et em [->|[n ->]] Hf; simpl; by rewrite Hf.
  - intros em v l1 x l2 a2 Hv Hbefore Hx Hlen.
    cbn [Marshal]. rewrite type_check_passes, (Len_elems _ _ Hv).
    rewrite length_app. simpl. rewrite Nat.add_succ_r.
    rewrite (marshalIndexes_wrong_length (Marshal em) v (l1 ++ x :: l2)
               (length l1) x a2 Hv); try done.
    + intros j y Hj Hy. apply Hbefore.
      rewrite lookup_app_l in Hy by done. by eapply list_elem_of_lookup_2.
    + by rewrite list_lookup_middle.
    + lia.
  - intros em v Hlen. cbn [Marshal]. by rewrite type_check_passes, Hlen.
Qed.

(** ** The loops of structMarshaler.MarshalValues *)

Lemma marshalFields_app fs1 fs2 v vs0 :
  marshalFields (fs1 ++ fs2) v vs0 =
  match marshalFields fs1 v vs0 with
  | Return vs1 None => marshalFields fs2 v vs1
  | r => r
  end.
Proof.
  revert vs0. induction fs1 as [|fm fs1 IH]; intros vs0; simpl.
  - by destruct (marshalFields fs2 v vs0) as [? [?|]|].
  - destruct (Field v (FieldIndex fm)) as [fv|]; [|done].
    destruct (_ && _); [apply IH|].
    destruct (Marshal (Marshaler_ fm) fv) as [a [err|]|]; [done|apply IH|done].
Qed.

(** The loop over fields only writes the keys of its entries. *)
Lemma marshalFields_other fs v vs0 vs k :
  marshalFields fs v vs0 = Return vs None ->
  k ∉ MName <$> fs ->
  vs !! k = vs0 !! k.
Proof.
  revert vs0. induction fs as [|fm fs IH]; intros vs0 Hrun Hk; simpl in Hrun.
  { by inversion Hrun. }
  rewrite fmap_cons in Hk. apply not_elem_of_cons in Hk as [Hne Hk].
  destruct (Field v (FieldIndex fm)) as [fv|]; [|done].
  destruct (_ && _); [by apply IH|].
  destruct (Marshal (Marshaler_ fm) fv) as [a [err|]|]; [done| |done].
  rewrite (IH _ Hrun Hk). destruct (Nat.eqb (len a) 0); [done|].
  apply lookup_insert_ne. by apply not_eq_sym.
Qed.

(** The loop over flattened sub-records leaves alone a key that none of
    them emits. *)
Lemma marshalEmbedded_other {V}
    (encode : V -> value -> ret (option (gmap string strs)))
    t efs v vs0 vs k :
  marshalEmbedded encode t efs v vs0 = Return (Some vs) None ->
  (forall idx vm x evs, (idx, vm) ∈ efs ->
     encode vm x = Return (Some evs) None -> evs !! k = None) ->
  vs !! k = vs0 !! k.
Proof.
  revert vs0. induction efs as [|[idx vm] efs IH]; intros vs0 Hrun Hk;
    simpl in Hrun.
  { by inversion Hrun. }
  destruct (Field v idx) as [fv|]; [|done].
  destruct (encode vm fv) as [evs [err|]|] eqn:Henc; [|  |done].
  { by destruct (FieldName t idx). }
  rewrite (IH _ Hrun).
  - destruct evs as [evs|]; simpl; [|done].
    apply lookup_union_r. apply (Hk idx vm fv evs); [|exact Henc].
    apply elem_of_cons. by left.
  - intros idx' vm' x evs' Hin. apply (Hk idx' vm' x evs').
    apply elem_of_cons. by right.
Qed.

Lemma marshalFields_entry l1 fm l2 v vs0 vs fv :
  marshalFields (l1 ++ fm :: l2) v vs0 = Return vs None ->
  MName fm ∉ MName <$> (l1 ++ l2) ->
  Field v (FieldIndex fm) = Some fv ->
  vs !! MName fm = fieldEntry fm fv (vs0 !! MName fm).
Proof.
  intros Hrun Hk Hfv. rewrite fmap_app in Hk.
  apply not_elem_of_app in Hk as [Hk1 Hk2].
  rewrite marshalFields_app in Hrun.
  destruct (marshalFields l1 v vs0) as [vs1 [err|]|] eqn:H1; [done| |done].
  rewrite <- (marshalFields_other _ _ _ _ _ H1 Hk1).
  simpl in Hrun. rewrite Hfv in Hrun. unfold fieldEntry.
  destruct (_ && _).
  { by rewrite (marshalFields_other _ _ _ _ _ Hrun Hk2). }
  destruct (Marshal (Marshaler_ fm) fv) as [a [err|]|]; [done| |done].
  rewrite (marshalFields_other _ _ _ _ _ Hrun Hk2).
  destruct (Nat.eqb (len a) 0); [done|]. apply lookup_insert_eq.
Qed.

(** An encode by a struct codec that returns no error has passed both
    loops. *)
Lemma struct_encode_success T efs fms v vs :
  MarshalValues (structMarshaler T efs fms) v = Return (Some vs) None ->
  exists vs1,
    marshalFields fms v ∅ = Return vs1 None
    /\ marshalEmbedded (fun vm fv => MarshalValues vm fv) (typeOf v) efs v vs1
       = Return (Some vs) None.
Proof.
  cbn [MarshalValues]. destruct (bool_decide (typeOf v <> T)); [done|].
  destruct (marshalFields fms v ∅) as [vs1 [err|]|]; [done| |done].
  intros Hemb. by exists vs1.
Qed.

(** ** KeepEmpty and OmitEmpty *)

(** C5, as the code has it. A struct is encoded without error by a codec
    in which only the entry [fm] has its wire key and no flattened
    sub-record emits that key. With OmitEmpty and an empty field value the
    output has no entry for the key. With KeepEmpty the field's encoder
    runs and the output has an entry exactly when the encoder returns at
    least one string: a scalar encoder returns one string, so the entry
    is there also for the zero value, while a nil pointer and a sequence
    without elements encode to no string and get no entry. *)
Theorem keepempty_entry_needs_a_string
    (T : rtype) (efs : list (nat * ValuesMarshaler))
    (l1 l2 : list fieldMarshaler) (fm : fieldMarshaler)
    (v fv : value) (vs : gmap string strs) :
  MName fm ∉ MName <$> (l1 ++ l2) ->
  (forall idx vm x evs, (idx, vm) ∈ efs ->
     MarshalValues vm x = Return (Some evs) None -> evs !! MName fm = None) ->
  MarshalValues (structMarshaler T efs (l1 ++ fm :: l2)) v
  = Return (Some vs) None ->
  Field v (FieldIndex fm) = Some fv ->
  (TagMarshalPresence (Tag fm) = OmitEmpty -> isEmpty fv = true ->
   vs !! MName fm = None)
  /\ (TagMarshalPresence (Tag fm) = KeepEmpty ->
      (exists a, Marshal (Marshaler_ fm) fv = Return a None
                 /\ vs !! MName fm = if Nat.eqb (len a) 0 then None else Some a)
      /\ (forall f, Marshaler_ fm = primitiveMarshalerFunc f ->
            exists s, f fv = (s, None) /\ vs !! MName fm = Some (Some [s]))
      /\ (forall e em, Marshaler_ fm = ptrMarshaler (TPtr e) em ->
            fv = VPtr e None -> vs !! MName fm = None)
      /\ (forall em, Marshaler_ fm = arrayAndSliceMarshaler (typeOf fv) em ->
            Len fv = Some 0 -> vs !! MName fm = None)).
Proof.
  intros Hkey Hefs Hrun Hfv.
  destruct (struct_encode_success _ _ _ _ _ Hrun) as (vs1 & Hfields & Hemb).
  assert (Hvs : vs !! MName fm = fieldEntry fm fv None).
  { rewrite (marshalEmbedded_other _ _ _ _ _ _ _ Hemb Hefs).
    rewrite (marshalFields_entry _ _ _ _ _ _ _ Hfields Hkey Hfv).
    by rewrite lookup_empty. }
  assert (Hok : TagMarshalPresence (Tag fm) = KeepEmpty ->
                exists a, Marshal (Marshaler_ fm) fv = Return a None).
  { intros Hkeep. rewrite marshalFields_app in Hfields.
    destruct (marshalFields l1 v ∅) as [vs0 [err|]|]; [done| |done].
    simpl in Hfields. rewrite Hfv, Hkeep in Hfields. simpl in Hfields.
    destruct (Marshal (Marshaler_ fm) fv) as [a [err|]|]; [done| |done].
    by exists a. }
  split.
  - intros Homit Hempty. rewrite Hvs. unfold fieldEntry.
    by rewrite Homit, Hempty.
  - intros Hkeep. destruct (Hok Hkeep) as [a Ha].
    assert (Hentry : vs !! MName fm = if Nat.eqb (len a) 0 then None else Some a).
    { rewrite Hvs. unfold fieldEntry. by rewrite Hkeep, Ha. }
    split; [by exists a|]. split; [|split].
    + intros f Hm. rewrite Hm in Ha. cbn [Marshal] in Ha.
      unfold primitiveMarshal in Ha.
      destruct (f fv) as [s [err|]]; inversion Ha; subst.
      by exists s.
    + intros e em Hm ->. rewrite Hm in Ha. cbn [Marshal typeOf] in Ha.
      rewrite type_check_passes in Ha. simpl in Ha.
      inversion Ha; subst. done.
    + intros em Hm Hlen. rewrite Hm in Ha. cbn [Marshal] in Ha.
      rewrite type_check_passes, Hlen in Ha. inversion Ha; subst. done.
Qed.

(** ** Errors of sub-codecs *)

Lemma unmarshalField_calls_decoder t fum v vs opts a fv :
  fieldInput fum vs = Some a ->
  Field v (UFieldIndex fum) = Some fv ->
  unmarshalField t fum v vs opts
  = (SetField v (UFieldIndex fum) (Unmarshal (Unmarshaler_ fum) fv a opts).1,
     match (Unmarshal (Unmarshaler_ fum) fv a opts).2 with
     | Failed err => Failed (Errorf (UnmarshalingEntry (UName fum) err))
     | o => o
     end).
Proof.
  unfold fieldInput, unmarshalField, UName. intros Hin Hfv.
  destruct (vs !! Name (UTag fum)) as [a'|].
  - inversion Hin; subst a'. rewrite Hfv.
    by destruct (Unmarshal (Unmarshaler_ fum) fv a opts) as [fv' [|err|]].
  - destruct (TagUnmarshalPresence (UTag fum)); inversion Hin; subst a;
      simpl; rewrite Hfv;
      by destruct (Unmarshal (Unmarshaler_ fum) fv None opts) as [fv' [|err|]].
Qed.

(** C6, as the code has it. Encoding by a struct codec: whenever an error
    is returned the url.Values returned with it is nil, and the error of
    the first field encoder that fails comes back wrapped with the wire
    key of the field. Decoding by a struct codec: when the entries before
    [fum] decode without error and the decoder of [fum] fails, the decode
    stops there and returns that error wrapped with the wire key of the
    field; the destination is then in the state the earlier entries and
    the failing decoder left it in, the later entries are not run. *)
Theorem sub_codec_error_aborts_the_call
    (T : rtype) (opts : UnmarshalOptions) :
  (forall efs fms v r err,
     MarshalValues (structMarshaler T efs fms) v = Return r (Some err) ->
     r = None)
  /\ (forall efs l1 fm l2 v vs1 fv a err,
        typeOf v = T ->
        marshalFields l1 v ∅ = Return vs1 None ->
        Field v (FieldIndex fm) = Some fv ->
        MarshalPresence_eqb (TagMarshalPresence (Tag fm)) OmitEmpty
          && isEmpty fv = false ->
        Marshal (Marshaler_ fm) fv = Return a (Some err) ->
        MarshalValues (structMarshaler T efs (l1 ++ fm :: l2)) v
        = Return None (Some (Errorf (MarshalingEntry (MName fm) err))))
  /\ (forall efs l1 fum l2 v vs v1 fv a fv' err,
        typeOf v = T ->
        unmarshalFields T l1 v vs opts = (v1, Done) ->
        Field v1 (UFieldIndex fum) = Some fv ->
        fieldInput fum vs = Some a ->
        Unmarshal (Unmarshaler_ fum) fv a opts = (fv', Failed err) ->
        UnmarshalValues (structUnmarshaler T efs (l1 ++ fum :: l2)) v vs opts
        = (SetField v1 (UFieldIndex fum) fv',
           Failed (Errorf (UnmarshalingEntry (UName fum) err)))).
Proof.
  split; [|split].
  - intros efs fms v r err. cbn [MarshalValues].
    destruct (bool_decide (typeOf v <> T)); [by inversion 1|].
    destruct (marshalFields fms v ∅) as [vs1 [e|]|]; [by inversion 1| |done].
    generalize vs1. clear vs1.
    induction efs as [|[idx vm] efs IH]; intros vs1; simpl; [done|].
    destruct (Field v idx) as [fv|]; [|done].
    destruct (MarshalValues vm fv) as [evs [e|]|]; [| apply IH |done].
    destruct (FieldName (typeOf v) idx); [by inversion 1|done].
  - intros efs l1 fm l2 v vs1 fv a err HT Hl1 Hfv Hskip Hm.
    cbn [MarshalValues]. rewrite HT, type_check_passes.
    rewrite marshalFields_app, Hl1. simpl.
    by rewrite Hfv, Hskip, Hm.
  - intros efs l1 fum l2 v vs v1 fv a fv' err HT Hl1 Hfv Hin Hu.
    cbn [UnmarshalValues]. rewrite HT, type_check_passes.
    rewrite unmarshalFields_split, Hl1.
    by rewrite (unmarshalField_calls_decoder _ _ _ _ _ _ _ Hin Hfv), Hu.
Qed.

(** ** Round trip through a struct codec *)

Lemma marshalFields_total fms v :
  (forall fm, fm ∈ fms ->
     exists fv, Field v (FieldIndex fm) = Some fv
       /\ (MarshalPresence_eqb (TagMarshalPresence (Tag fm)) OmitEmpty
             && isEmpty fv = true
           \/ exists a, Marshal (Marshaler_ fm) fv = Return a None)) ->
  forall vs0, exists vs, marshalFields fms v vs0 = Return vs None.
Proof.
  induction fms as [|fm fms IH]; intros Hall vs0; simpl; [by exists vs0|].
  destruct (Hall fm) as (fv & Hfv & Hcase); [apply elem_of_cons; by left|].
  assert (Hrest : forall fm', fm' ∈ fms ->
     exists fv, Field v (FieldIndex fm') = Some fv
       /\ (MarshalPresence_eqb (TagMarshalPresence (Tag fm')) OmitEmpty
             && isEmpty fv = true
           \/ exists a, Marshal (Marshaler_ fm') fv = Return a None)).
  { intros fm' Hin. apply Hall. apply elem_of_cons. by right. }
  rewrite Hfv. destruct (_ && _) eqn:Hskip; [by apply IH|].
  destruct Hcase as [?|[a Ha]]; [done|]. rewrite Ha. by apply IH.
Qed.

Lemma unmarshalField_decodes_to t fum n d cur vs opts dx x :
  cur !! UFieldIndex fum = Some dx ->
  fieldDecodesTo fum vs dx x opts ->
  unmarshalField t fum (VStruct n d cur) vs opts
  = (VStruct n d (<[UFieldIndex fum := x]> cur), Done).
Proof.
  intros Hdx Hdec. unfold fieldDecodesTo in Hdec.
  destruct (fieldInput fum vs) as [a|] eqn:Hin.
  - rewrite (unmarshalField_calls_decoder _ _ _ _ _ a dx Hin) by done.
    by rewrite Hdec.
  - destruct Hdec as [Hnil ->]. unfold fieldInput, UName in Hin.
    unfold unmarshalField.
    destruct (vs !! Name (UTag fum)); [done|]. rewrite Hnil. simpl.
    by rewrite list_insert_id.
Qed.

Lemma unmarshalFields_restores t n d (xs : list value) vs opts fums :
  forall cur,
    NoDup (UFieldIndex <$> fums) ->
    (forall fum, fum ∈ fums ->
       exists x dx, xs !! UFieldIndex fum = Some x
         /\ cur !! UFieldIndex fum = Some dx
         /\ fieldDecodesTo fum vs dx x opts) ->
    exists cur',
      unmarshalFields t fums (VStruct n d cur) vs opts
      = (VStruct n d cur', Done)
      /\ (forall fum, fum ∈ fums ->
            cur' !! UFieldIndex fum = xs !! UFieldIndex fum)
      /\ (forall j, j ∉ UFieldIndex <$> fums -> cur' !! j = cur !! j).
Proof.
  induction fums as [|fum fums IH]; intros cur Hnd Hall.
  { exists cur. simpl. split; [done|]. split; [|done].
    intros fum Hin. by apply elem_of_nil in Hin. }
  rewrite fmap_cons in Hnd. apply NoDup_cons in Hnd as [Hfresh Hnd].
  destruct (Hall fum) as (x & dx & Hx & Hdx & Hdec);
    [apply elem_of_cons; by left|].
  simpl. rewrite (unmarshalField_decodes_to _ _ _ _ _ _ _ _ _ Hdx Hdec).
  destruct (IH (<[UFieldIndex fum := x]> cur) Hnd) as (cur' & Hrun & Hin & Hout).
  { intros fum' Hin'.
    destruct (Hall fum') as (x' & dx' & Hx' & Hdx' & Hdec');
      [apply elem_of_cons; by right|].
    exists x', dx'. split; [done|]. split; [|done].
    rewrite list_lookup_insert_ne; [done|].
    intros Heq. apply Hfresh. rewrite Heq. by apply list_elem_of_fmap_2. }
  exists cur'. split; [done|]. split.
  - intros fum' Hin'. apply elem_of_cons in Hin' as [->|Hin']; [|by apply Hin].
    rewrite (Hout _ Hfresh), Hx. apply list_lookup_insert_eq.
    by eapply lookup_lt_Some.
  - intros j Hj. change (j ∉ UFieldIndex fum :: (UFieldIndex <$> fums)) in Hj.
    apply not_elem_of_cons in Hj as [Hne Hj].
    rewrite (Hout _ Hj). by apply list_lookup_insert_ne.
Qed.

Lemma restoresAbsent_decodes fum vs dx x opts :
  vs !! UName fum = None ->
  restoresAbsent fum dx x opts ->
  fieldDecodesTo fum vs dx x opts.
Proof.
  unfold restoresAbsent, fieldDecodesTo, fieldInput. intros -> Hres.
  by destruct (TagUnmarshalPresence (UTag fum)).
Qed.

Lemma fieldRoundTrips_decodes fm fum x dx vs opts :
  sameField fm fum ->
  vs !! MName fm = fieldEntry fm x None ->
  fieldRoundTrips fm fum x dx opts ->
  fieldDecodesTo fum vs dx x opts.
Proof.
  intros [_ Hname] Hvs Hrt. rewrite Hname in Hvs.
  unfold fieldRoundTrips in Hrt. unfold fieldEntry in Hvs.
  destruct (_ && _); [by apply restoresAbsent_decodes|].
  destruct Hrt as (a & Ha & Hrt). rewrite Ha in Hvs.
  destruct (Nat.eqb (len a) 0); [by apply restoresAbsent_decodes|].
  unfold fieldDecodesTo, fieldInput. by rewrite Hvs.
Qed.

Lemma sameField_indexes fms fums :
  Forall2 sameField fms fums ->
  UFieldIndex <$> fums = FieldIndex <$> fms.
Proof.
  induction 1 as [|fm fum fms fums [Hi _] _ IH]; [done|].
  rewrite !fmap_cons. by rewrite IH, Hi.
Qed.

Lemma NoDup_fmap_split {A B} (f : A -> B) (l : list A) x :
  NoDup (f <$> l) -> x ∈ l ->
  exists l1 l2, l = l1 ++ x :: l2 /\ f x ∉ f <$> (l1 ++ l2).
Proof.
  intros Hnd Hin. destruct (list_elem_of_split _ _ Hin) as (l1 & l2 & ->).
  exists l1, l2. split; [done|].
  rewrite fmap_app, fmap_cons in Hnd.
  apply NoDup_app in Hnd as (_ & Hdisj & Hnd).
  apply NoDup_cons in Hnd as [Hfresh _].
  rewrite fmap_app. intros Hx. apply elem_of_app in Hx as [Hx|Hx]; [|done].
  apply (Hdisj _ Hx). apply elem_of_cons. by left.
Qed.

(** C1, as the code has it. A struct is encoded by a struct codec and the
    output is decoded by the matching codec into a destination of the same
    struct type. The two codecs have no flattened sub-records and entries
    for the same fields, pairwise at different positions and under
    different wire keys, and every field value comes back through the
    entries of its field: when the field is emitted (not skipped by
    OmitEmpty, encoded to at least one string) its decoder turns the
    destination field into the field value, and when it is not emitted the
    option is not Req and the decoder does so from the nil []string (Opt)
    or the destination field already holds the value (Nil). Then the
    encode succeeds, the decode succeeds, every field with an entry holds
    the value it had in the encoded struct and every other field of the
    destination is as it was. *)
Theorem struct_round_trip
    (n : string) (d : list (string * rtype)) (xs ds : list value)
    (fms : list fieldMarshaler) (fums : list fieldUnmarshaler)
    (opts : UnmarshalOptions) :
  NoDup (MName <$> fms) ->
  NoDup (FieldIndex <$> fms) ->
  Forall2 (fun fm fum =>
             sameField fm fum
             /\ exists x dx,
                  xs !! FieldIndex fm = Some x
                  /\ ds !! FieldIndex fm = Some dx
                  /\ fieldRoundTrips fm fum x dx opts) fms fums ->
  exists vs ds',
    MarshalValues (structMarshaler (TStruct n d) [] fms) (VStruct n d xs)
    = Return (Some vs) None
    /\ UnmarshalValues (structUnmarshaler (TStruct n d) [] fums)
         (VStruct n d ds) vs opts
       = (VStruct n d ds', Done)
    /\ (forall fm, fm ∈ fms -> ds' !! FieldIndex fm = xs !! FieldIndex fm)
    /\ (forall j, j ∉ FieldIndex <$> fms -> ds' !! j = ds !! j).
Proof.
  intros Hnames Hidx Hall.
  assert (Hsame : Forall2 sameField fms fums).
  { eapply Forall2_impl; [exact Hall|]. by intros fm fum [? _]. }
  (* the encode *)
  destruct (marshalFields_total fms (VStruct n d xs)) with (vs0 := (∅ : gmap string strs))
    as [vs Hvs].
  { intros fm Hin. apply list_elem_of_lookup_1 in Hin as [i Hi].
    destruct (Forall2_lookup_l _ _ _ _ _ Hall Hi)
      as (fum & _ & _ & x & dx & Hx & _ & Hrt).
    exists x. split; [done|]. unfold fieldRoundTrips in Hrt.
    destruct (_ && _); [by left|]. destruct Hrt as (a & Ha & _).
    right. by exists a. }
  assert (Hentry : forall fm x, fm ∈ fms -> xs !! FieldIndex fm = Some x ->
                     vs !! MName fm = fieldEntry fm x None).
  { intros fm x Hin Hx.
    destruct (NoDup_fmap_split MName fms fm Hnames Hin)
      as (l1 & l2 & Heq & Hfresh).
    rewrite Heq in Hvs.
    rewrite (marshalFields_entry _ _ _ _ _ _ x Hvs Hfresh) by done.
    by rewrite lookup_empty. }
  (* the decode *)
  destruct (unmarshalFields_restores (TStruct n d) n d xs vs opts fums ds)
    as (ds' & Hrun & Hin & Hout).
  { rewrite (sameField_indexes _ _ Hsame). exact Hidx. }
  { intros fum Hfum. apply list_elem_of_lookup_1 in Hfum as [i Hi].
    destruct (Forall2_lookup_r _ _ _ _ _ Hall Hi)
      as (fm & Hfm & Hsf & x & dx & Hx & Hdx & Hrt).
    destruct Hsf as [Hi' Hn]. rewrite <- Hi'.
    exists x, dx. split; [done|]. split; [done|].
    apply (fieldRoundTrips_decodes fm); [done| |done].
    apply Hentry; [|done]. by eapply list_elem_of_lookup_2. }
  exists vs, ds'. split; [|split; [|split]].
  - cbn [MarshalValues typeOf]. by rewrite type_check_passes, Hvs.
  - cbn [UnmarshalValues typeOf]. by rewrite type_check_passes, Hrun.
  - intros fm Hfm. apply list_elem_of_lookup_1 in Hfm as [i Hi].
    destruct (Forall2_lookup_l _ _ _ _ _ Hall Hi)
      as (fum & Hfum & [Hi' _] & _).
    rewrite Hi'. apply Hin. by eapply list_elem_of_lookup_2.
  - intros j Hj. apply Hout. by rewrite (sameField_indexes _ _ Hsame).
Qed.

(** ** Round trip of the leaves and of sequences *)

Lemma ParseBool_FormatBool b : ParseBool (FormatBool b) = (b, None).
Proof. by destruct b. Qed.

Lemma string_round_trips s dx :
  Marshal (primitiveMarshalerFunc marshalString) (VString s)
  = Return (Some [s]) None
  /\ Unmarshal (primitiveUnmarshalerFunc unmarshalString) (VString dx)
       (Some [s]) defaultUnmarshalOptions
     = (VString s, Done).
Proof. done. Qed.

Lemma bool_round_trips b dx :
  Marshal (primitiveMarshalerFunc marshalBool) (VBool b)
  = Return (Some [FormatBool b]) None
  /\ Unmarshal (primitiveUnmarshalerFunc unmarshalBool) (VBool dx)
       (Some [FormatBool b]) defaultUnmarshalOptions
     = (VBool b, Done).
Proof.
  split; [done|]. cbn [Unmarshal]. unfold primitiveUnmarshal. simpl.
  by rewrite ParseBool_FormatBool.
Qed.

(** A field emitted with one or more strings that its decoder turns back
    into the field value round-trips, whatever its options. *)
Lemma emitted_field_round_trips fm fum x dx a opts :
  MarshalPresence_eqb (TagMarshalPresence (Tag fm)) OmitEmpty && isEmpty x
  = false ->
  Marshal (Marshaler_ fm) x = Return a None ->
  len a <> 0 ->
  Unmarshal (Unmarshaler_ fum) dx a opts = (x, Done) ->
  fieldRoundTrips fm fum x dx opts.
Proof.
  intros Hskip Ha Hlen Hu. unfold fieldRoundTrips. rewrite Hskip.
  exists a. split; [done|]. by destruct (Nat.eqb_spec (len a) 0).
Qed.

Lemma marshalIndexes_all f v l1 ss :
  Forall2 (fun x s => f x = Return (Some [s]) None) l1 ss ->
  forall l0, elems v = Some (l0 ++ l1) ->
    marshalIndexes f v (length l1) (length l0) = Return ss None.
Proof.
  induction 1 as [|x s l1 ss Hx _ IH]; intros l0 Hv; simpl; [done|].
  rewrite (Index_elems _ _ _ Hv), list_lookup_middle by done.
  rewrite Hx. specialize (IH (l0 ++ [x])).
  rewrite length_app, Nat.add_1_r in IH.
  rewrite IH; [done|]. by rewrite <- app_assoc.
Qed.

(** A slice with at least one element round-trips into a nil slice when
    each element round-trips through the element codecs into a zero
    element. *)
Lemma slice_round_trips e em eu l ss opts :
  l <> [] ->
  Forall2 (fun x s =>
             Marshal em x = Return (Some [s]) None
             /\ Unmarshal eu (zero e) (Some [s]) opts = (x, Done)) l ss ->
  Marshal (arrayAndSliceMarshaler (TSlice e) em) (VSlice e (Some l))
  = Return (Some ss) None
  /\ Unmarshal (sliceUnmarshaler (TSlice e) eu) (VSlice e None) (Some ss) opts
     = (VSlice e (Some l), Done).
Proof.
  intros Hne Hall. pose proof (Forall2_length _ _ _ Hall) as Hlen. split.
  - assert (Hm : marshalIndexes (Marshal em) (VSlice e (Some l)) (length l)
                   (length (@nil value)) = Return ss None).
    { apply marshalIndexes_all; [|done].
      eapply Forall2_impl; [exact Hall|]. by intros ? ? [? _]. }
    cbn [Marshal typeOf]. rewrite type_check_passes. cbn [Len default].
    destruct l as [|x l]; [done|]. simpl in Hm |- *. by rewrite Hm.
  - cbn [Unmarshal typeOf]. rewrite type_check_passes. cbn [IsNil].
    rewrite bool_decide_eq_true_2 by done. cbn [len default MakeSlice].
    destruct (unmarshalIndexes _ _ _ _ _) as [v' o] eqn:Hrun.
    assert (Hd : o = Done).
    { change o with (v', o).2. rewrite <- Hrun.
      eapply unmarshalIndexes_done; [reflexivity| |].
      - rewrite length_replicate. simpl. lia.
      - intros j s x Hs Hx. simpl in Hx.
        apply lookup_replicate in Hx as [-> _].
        destruct (Forall2_lookup_r _ _ _ _ _ Hall Hs) as (y & _ & _ & ->).
        done. }
    eapply unmarshalIndexes_elems in Hrun; [|reflexivity].
    destruct Hrun as (l' & -> & Hlen' & _ & _ & Hin & _).
    rewrite length_replicate in Hlen'. simpl. f_equal; [|done].
    f_equal. f_equal. apply list_eq. intros j.
    destruct (ss !! j) as [s|] eqn:Hs.
    + destruct (Forall2_lookup_r _ _ _ _ _ Hall Hs) as (y & Hy & _ & Hu).
      rewrite Hy. specialize (Hin Hd j s (zero e) Hs). simpl in Hin.
      rewrite Hin; [by rewrite Hu|].
      apply lookup_replicate_2. by eapply lookup_lt_Some.
    + apply lookup_ge_None in Hs.
      rewrite (proj2 (lookup_ge_None l' j)) by lia.
      symmetry. apply lookup_ge_None. lia.
Qed.

(** * The properties on the worked records *)

Import Examples.

(** C1 on Query: ("my search", true, ["c1", "c2"]) comes back from its
    encoding into a zero Query. *)
Lemma struct_round_trip_witness :
  exists vs ds',
    MarshalValues (structMarshaler Query [] queryFields)
      (VStruct "Query" QueryDecl queryValues)
    = Return (Some vs) None
    /\ UnmarshalValues (structUnmarshaler Query [] queryUFields)
         (VStruct "Query" QueryDecl queryZeros) vs defaultUnmarshalOptions
       = (VStruct "Query" QueryDecl ds', Done)
    /\ (forall fm, fm ∈ queryFields ->
          ds' !! FieldIndex fm = queryValues !! FieldIndex fm)
    /\ (forall j, j ∉ FieldIndex <$> queryFields ->
          ds' !! j = queryZeros !! j).
Proof.
  apply (struct_round_trip "Query" QueryDecl queryValues queryZeros
           queryFields queryUFields defaultUnmarshalOptions).
  - apply (bool_decide_unpack _). vm_compute. exact I.
  - apply (bool_decide_unpack _). vm_compute. exact I.
  - constructor; [|constructor; [|constructor; [|constructor]]].
    + split; [split; reflexivity|].
      exists (VString "my search"), (VString "").
      split; [reflexivity|]. split; [reflexivity|].
      apply emitted_field_round_trips with (a := Some ["my search"]);
        [reflexivity | reflexivity | simpl; lia | reflexivity].
    + split; [split; reflexivity|].
      exists (VBool true), (VBool false).
      split; [reflexivity|]. split; [reflexivity|].
      apply emitted_field_round_trips with (a := Some ["true"]);
        [reflexivity | reflexivity | simpl; lia | reflexivity].
    + split; [split; reflexivity|].
      exists (VSlice TString (Some [VString "c1"; VString "c2"])),
             (VSlice TString None).
      split; [reflexivity|]. split; [reflexivity|].
      apply emitted_field_round_trips with (a := Some ["c1"; "c2"]);
        [reflexivity | reflexivity | simpl; lia | reflexivity].
Defined.

(** C1 fails on Dup, whose two fields share the wire key x: ("1", "2")
    is encoded to x=2 and decoded to ("2", "2"); and on Tags, whose
    required slice holds no element: nothing is emitted for it, and the
    decode of the output fails with the required-field error. *)
Lemma round_trip_counterexample :
  (MarshalValues dupMarshaler (VStruct "Dup" DupDecl [VString "1"; VString "2"])
   = Return (Some {["x" := Some ["2"]]}) None
   /\ UnmarshalValues dupUnmarshaler (zero Dup) {["x" := Some ["2"]]}
        defaultUnmarshalOptions
      = (VStruct "Dup" DupDecl [VString "2"; VString "2"], Done))
  /\ (MarshalValues tagsMarshaler (VStruct "Tags" TagsDecl [VSlice TString (Some [])])
      = Return (Some ∅) None
      /\ UnmarshalValues tagsUnmarshaler (zero Tags) ∅ defaultUnmarshalOptions
         = (zero Tags, Failed (reqError (MissingRequiredField "s" Tags) "s"))).
Proof. repeat split; vm_compute; reflexivity. Qed.


(** C2 fails on a wrapped factory that answers with the nil codec and no
    error: the nil interface is stored, the first request returns the nil
    codec and the second one panics in [item.(error)]. *)
Lemma cache_of_nil_codec_counterexample :
  let wrapped := fakeMarshalerFactory nilMarshaler None in
  let '(r1, o1) :=
    marshalerCache_Marshaler noCodec wrapped (Cache.newCache []) TString in
  let '(r2, o2) := marshalerCache_Marshaler noCodec wrapped o1 TString in
  r1 = Return nilMarshaler None /\ r2 = Panic
  /\ Cache.wrappedState o2 = [TString].
Proof. vm_compute. repeat split. Qed.

Example TestMarshalerCacheSuccess :
  let wrapped := fakeMarshalerFactory stringMarshaler None in
  let '(r1, o1) :=
    marshalerCache_Marshaler noCodec wrapped (Cache.newCache []) TString in
  let '(r2, o2) := marshalerCache_Marshaler noCodec wrapped o1 TString in
  r1 = Return stringMarshaler None
  /\ r2 = Return stringMarshaler None
  /\ Cache.wrappedState o1 = [TString] /\ Cache.wrappedState o2 = [TString].
Proof. vm_compute. repeat split. Qed.

Example TestMarshalerCacheError :
  let wrapped := fakeMarshalerFactory nilMarshaler (Some testError) in
  let '(r1, o1) :=
    marshalerCache_Marshaler noCodec wrapped (Cache.newCache []) TString in
  let '(r2, o2) := marshalerCache_Marshaler noCodec wrapped o1 TString in
  r1 = Return nilMarshaler (Some testError)
  /\ r2 = Return nilMarshaler (Some testError)
  /\ Cache.wrappedState o1 = [TString] /\ Cache.wrappedState o2 = [TString].
Proof. vm_compute. repeat split. Qed.

(** An error value that is a codec as well comes back from the cache as
    that codec, with no error: here the test error is taken to be of a
    type with a Marshal method, the one of the string codec. *)
Example cached_error_that_is_a_codec :
  let asCodec := fun err : error => Some stringMarshaler in
  let wrapped := fakeMarshalerFactory nilMarshaler (Some testError) in
  let '(r1, o1) :=
    marshalerCache_Marshaler asCodec wrapped (Cache.newCache []) TString in
  let '(r2, o2) := marshalerCache_Marshaler asCodec wrapped o1 TString in
  r1 = Return nilMarshaler (Some testError)
  /\ r2 = Return stringMarshaler None.
Proof. vm_compute. repeat split. Qed.

(** C3 on Login, for the entry of User: without the key user the decode
    of a zero Login fails with the required-field error carrying user. *)
Lemma req_presence_reports_first_missing_key_witness :
  TagUnmarshalPresence (UTag loginUser) = Req
  /\ ({["pass" := Some ["secret"]]} : gmap string strs) !! "user" = None
  /\ UnmarshalValues loginUnmarshaler (zero Login)
       {["pass" := Some ["secret"]]} defaultUnmarshalOptions
     = (zero Login, Failed (reqError (MissingRequiredField "user" Login) "user")).
Proof.
  assert (Habsent : ({["pass" := Some ["secret"]]} : gmap string strs)
                    !! "user" = None) by (vm_compute; reflexivity).
  split; [reflexivity|]. split; [exact Habsent|].
  destruct (req_presence_reports_first_missing_key Login [] [] [loginPass]
              loginUser (zero Login) {["pass" := Some ["secret"]]}
              defaultUnmarshalOptions eq_refl) as [Hmissing _].
  destruct (Hmissing Habsent) as [_ Hfirst].
  destruct (Hfirst eq_refl (zero Login) eq_refl) as [Hr _].
  exact Hr.
Defined.

(** C3 fails on Login for the entry of Pass: with neither key in the
    input the required-field error carries user, the key of the entry
    before it, and with the key pass in the input, mapped to an empty
    string, a required-field error is still returned, for user. *)
Lemma req_presence_counterexample :
  TagUnmarshalPresence (UTag loginPass) = Req
  /\ UnmarshalValues loginUnmarshaler (zero Login) ∅ defaultUnmarshalOptions
     = (zero Login, Failed (reqError (MissingRequiredField "user" Login) "user"))
  /\ IsRequiredFieldError (reqError (MissingRequiredField "user" Login) "user")
     = ("user", true)
  /\ UnmarshalValues loginUnmarshaler (zero Login) {["pass" := Some [""]]}
       defaultUnmarshalOptions
     = (zero Login, Failed (reqError (MissingRequiredField "user" Login) "user")).
Proof. repeat split; vm_compute; reflexivity. Qed.

(** C4 on [2]bool: one input string is refused with the length error. *)
Lemma sequence_decoders_and_length_witness :
  Unmarshal (arrayUnmarshaler (TArray 2 TBool) boolUnmarshaler 2)
    (VArray TBool [VBool false; VBool false]) (Some ["true"])
    defaultUnmarshalOptions
  = (VArray TBool [VBool false; VBool false],
     Failed (Errorf (ArrayLength 1 2))).
Proof.
  apply (proj1 (sequence_decoders_and_length TBool boolUnmarshaler
                  [VBool false; VBool false] (Some ["true"])
                  defaultUnmarshalOptions) ["true"]);
    [reflexivity | simpl; lia].
Defined.

(** C4 fails on [2]string with the nil input, which has no string and is
    accepted, and on []bool with an input that is not a boolean, for which
    the decode of the slice fails. *)
Lemma sequence_length_counterexample :
  Unmarshal (arrayUnmarshaler (TArray 2 TString) stringUnmarshaler 2)
    (zero (TArray 2 TString)) None defaultUnmarshalOptions
  = (zero (TArray 2 TString), Done)
  /\ Unmarshal (sliceUnmarshaler (TSlice TBool) boolUnmarshaler)
       (zero (TSlice TBool)) (Some ["maybe"]) defaultUnmarshalOptions
     = (VSlice TBool (Some [VBool false]),
        Failed (Errorf (UnmarshalingSliceIndex 0 (numError "ParseBool" "maybe")))).
Proof. split; vm_compute; reflexivity. Qed.

(** C5 on Flag: the zero value false is emitted as on=false under
    KeepEmpty. *)
Lemma keepempty_entry_needs_a_string_witness :
  MarshalValues (structMarshaler Flag [] [flagOn KeepEmpty])
    (VStruct "Flag" FlagDecl [VBool false])
  = Return (Some {["on" := Some ["false"]]}) None
  /\ exists s, marshalBool (VBool false) = (s, None)
       /\ ({["on" := Some ["false"]]} : gmap string strs) !! "on"
          = Some (Some [s]).
Proof.
  assert (Hrun : MarshalValues (structMarshaler Flag [] [flagOn KeepEmpty])
                   (VStruct "Flag" FlagDecl [VBool false])
                 = Return (Some {["on" := Some ["false"]]}) None).
  { vm_compute. reflexivity. }
  split; [exact Hrun|].
  refine (proj1 (proj2 (proj2
            (keepempty_entry_needs_a_string Flag [] [] [] (flagOn KeepEmpty)
               (VStruct "Flag" FlagDecl [VBool false]) (VBool false)
               {["on" := Some ["false"]]} _ _ Hrun eq_refl) eq_refl))
            marshalBool eq_refl).
  - simpl. intros Hin. by apply elem_of_nil in Hin.
  - intros idx vm x evs Hin. by apply elem_of_nil in Hin.
Defined.

(** C5 fails on Opts: the nil pointer of a KeepEmpty field leaves no entry
    under name. *)
Lemma keepempty_counterexample :
  TagMarshalPresence (Tag (optsName KeepEmpty)) = KeepEmpty
  /\ isEmpty (VPtr TString None) = true
  /\ MarshalValues (optsMarshaler KeepEmpty)
       (VStruct "Opts" OptsDecl [VPtr TString None])
     = Return (Some ∅) None
  /\ MarshalValues (optsMarshaler OmitEmpty)
       (VStruct "Opts" OptsDecl [VPtr TString None])
     = Return (Some ∅) None.
Proof. repeat split; vm_compute; reflexivity. Qed.

(** C6 on Form: the text given for Done is not a boolean, the decode
    returns the wrapped error and Title has already been set. *)
Lemma sub_codec_error_aborts_the_call_witness :
  UnmarshalValues formUnmarshaler (zero Form)
    {["title" := Some ["x"]; "done" := Some ["maybe"]]} defaultUnmarshalOptions
  = (VStruct "Form" FormDecl [VString "x"; VBool false],
     Failed (Errorf (UnmarshalingEntry "done" (numError "ParseBool" "maybe")))).
Proof.
  apply (proj2 (proj2 (sub_codec_error_aborts_the_call Form
                         defaultUnmarshalOptions))
           [] [formTitle] formDone [] (zero Form)
           {["title" := Some ["x"]; "done" := Some ["maybe"]]}
           (VStruct "Form" FormDecl [VString "x"; VBool false])
           (VBool false) (Some ["maybe"]) (VBool false)
           (numError "ParseBool" "maybe"));
    vm_compute; reflexivity.
Defined.

(** C6 fails on decode. On Form the failed decode leaves Title set. On
    Row, with only the key pair in the input and one string under it, the
    decode fails on the length of the array after the nil slice Tags has
    been replaced by an allocated one. *)
Lemma partial_decode_counterexample :
  (UnmarshalValues formUnmarshaler (zero Form)
     {["title" := Some ["x"]; "done" := Some ["maybe"]]} defaultUnmarshalOptions
   = (VStruct "Form" FormDecl [VString "x"; VBool false],
      Failed (Errorf (UnmarshalingEntry "done" (numError "ParseBool" "maybe"))))
   /\ VStruct "Form" FormDecl [VString "x"; VBool false] <> zero Form)
  /\ (UnmarshalValues rowUnmarshaler (zero Row) {["pair" := Some ["x"]]}
        defaultUnmarshalOptions
      = (VStruct "Row" RowDecl
           [VSlice TString (Some []); VArray TString [VString ""; VString ""]],
         Failed (Errorf (UnmarshalingEntry "pair" (Errorf (ArrayLength 1 2)))))
      /\ VStruct "Row" RowDecl
           [VSlice TString (Some []); VArray TString [VString ""; VString ""]]
         <> zero Row).
Proof.
  split; (split; [vm_compute; reflexivity|]); vm_compute; intros Heq;
    inversion Heq.
Qed.

(** C7 on []*string: the codec is built, and encoding a slice whose first
    element is the nil pointer fails in the encode call with the count 0
    at index 0. *)
Lemma sequence_element_arity_checked_by_encode_witness :
  newArrayAndSliceMarshaler (TSlice (TPtr TString)) stringsFactory
  = (arrayAndSliceMarshaler (TSlice (TPtr TString))
       (ptrMarshaler (TPtr TString) stringMarshaler), None)
  /\ Marshal (arrayAndSliceMarshaler (TSlice (TPtr TString))
               (ptrMarshaler (TPtr TString) stringMarshaler))
       (VSlice (TPtr TString) (Some [VPtr TString None]))
     = Return None (Some (Errorf (MarshalerReturnedLength 0 0))).
Proof.
  destruct sequence_element_arity_checked_by_encode as (Hnew & Hrun & _).
  split.
  - apply (Hnew stringsFactory (TSlice (TPtr TString)) (TPtr TString));
      [by left | reflexivity].
  - apply (Hrun (ptrMarshaler (TPtr TString) stringMarshaler)
             (VSlice (TPtr TString) (Some [VPtr TString None]))
             [] (VPtr TString None) [] None).
    + reflexivity.
    + intros y Hy. by apply elem_of_nil in Hy.
    + reflexivity.
    + simpl. lia.
Defined.

(** C7 fails on []*string: the element codec of *string returns no
    string for a nil pointer, yet the construction of the slice codec
    returns the codec and no error; the error comes from Marshal. *)
Lemma construction_accepts_any_element_codec_counterexample :
  (exists m, newArrayAndSliceMarshaler (TSlice (TPtr TString)) stringsFactory
             = (m, None)
     /\ Marshal m (VSlice (TPtr TString) (Some [VPtr TString None]))
        = Return None (Some (Errorf (MarshalerReturnedLength 0 0))))
  /\ Marshal (ptrMarshaler (TPtr TString) stringMarshaler) (VPtr TString None)
     = Return None None.
Proof.
  split; [|reflexivity].
  exists (arrayAndSliceMarshaler (TSlice (TPtr TString))
            (ptrMarshaler (TPtr TString) stringMarshaler)).
  split; reflexivity.
Qed.

(** C8 on Page with the Nil option on Cursor: without the key cursor a
    pointer held by Cursor is still there after the decode. *)
Lemma nil_presence_leaves_absent_field_untouched_witness :
  TagUnmarshalPresence (UTag (pageCursor Nil)) = Nil
  /\ ({["labels" := Some ["a"]]} : gmap string strs) !! "cursor" = None
  /\ UnmarshalValues (structUnmarshaler Page [] [pageCursor Nil; pageLabels])
       (VStruct "Page" PageDecl
          [VPtr TString (Some (VString "c0")); VSlice TString None])
       {["labels" := Some ["a"]]} defaultUnmarshalOptions
     = UnmarshalValues (structUnmarshaler Page [] [pageLabels])
         (VStruct "Page" PageDecl
            [VPtr TString (Some (VString "c0")); VSlice TString None])
         {["labels" := Some ["a"]]} defaultUnmarshalOptions.
Proof.
  assert (Habsent : ({["labels" := Some ["a"]]} : gmap string strs)
                    !! "cursor" = None) by (vm_compute; reflexivity).
  split; [reflexivity|]. split; [exact Habsent|].
  exact (proj1 (proj2
           (nil_presence_leaves_absent_field_untouched Page [] [] [pageLabels]
              (pageCursor Nil)
              (VStruct "Page" PageDecl
                 [VPtr TString (Some (VString "c0")); VSlice TString None])
              {["labels" := Some ["a"]]} defaultUnmarshalOptions
              eq_refl Habsent))).
Defined.

(** C9 on Page with the Opt option on both fields and an empty input: the
    nil pointer Cursor stays nil. *)
Lemma opt_presence_decodes_absent_field_from_nil_witness :
  TagUnmarshalPresence (UTag (pageCursor Opt)) = Opt
  /\ (∅ : gmap string strs) !! "cursor" = None
  /\ Field (UnmarshalValues
              (structUnmarshaler Page [] [pageCursor Opt; pageLabels])
              (zero Page) ∅ defaultUnmarshalOptions).1 0
     = Some (VPtr TString None).
Proof.
  split; [reflexivity|]. split; [reflexivity|].
  refine (proj1 (proj2
            (opt_presence_decodes_absent_field_from_nil Page [] [] [pageLabels]
               (pageCursor Opt) (zero Page) ∅ defaultUnmarshalOptions
               eq_refl eq_refl _ _))
            TString TString stringUnmarshaler None eq_refl eq_refl).
  - vm_compute. intros Hin. apply elem_of_cons in Hin as [Heq|Hin].
    + discriminate Heq.
    + by apply elem_of_nil in Hin.
  - intros Hin. by apply elem_of_nil in Hin.
Defined.

Example opt_presence_on_Page :
  UnmarshalValues (structUnmarshaler Page [] [pageCursor Opt; pageLabels])
    (zero Page) ∅ defaultUnmarshalOptions
  = (VStruct "Page" PageDecl [VPtr TString None; VSlice TString (Some [])],
     Done).
Proof. vm_compute. reflexivity. Qed.

(** C10 on []string: three input strings for a slice of two elements. *)
Example slice_decoder_panics_past_the_length :
  Unmarshal (sliceUnmarshaler (TSlice TString) stringUnmarshaler)
    (VSlice TString (Some [VString "a"; VString "b"]))
    (Some ["x"; "y"; "z"]) defaultUnmarshalOptions
  = (VSlice TString (Some [VString "x"; VString "y"]), Panicked).
Proof. vm_compute. reflexivity. Qed.

Example slice_decoder_keeps_the_tail :
  Unmarshal (sliceUnmarshaler (TSlice TString) stringUnmarshaler)
    (VSlice TString (Some [VString "a"; VString "b"; VString "c"]))
    (Some ["x"]) defaultUnmarshalOptions
  = (VSlice TString (Some [VString "x"; VString "b"; VString "c"]), Done).
Proof. vm_compute. reflexivity. Qed.

(** ** The scenarios of the package documentation *)

Example README_Query_is_encoded_as_documented :
  MarshalValues readmeQueryMarshaler
    (VStruct "Query" ReadmeQueryDecl
       [VString "my search"; VInt W0 2; VInt W0 50;
        VSlice TString (Some [VString "c1"; VString "c2"])])
  = Return (Some {["search" := Some ["my search"]; "page" := Some ["2"];
                   "page_size" := Some ["50"];
                   "category" := Some ["c1"; "c2"]]}) None.
Proof. vm_compute. reflexivity. Qed.

Example repeated_key_for_a_scalar_is_refused f v :
  Unmarshal (primitiveUnmarshalerFunc f) v (Some ["5"; "6"])
    defaultUnmarshalOptions
  = (v, Failed (Errorf (SliceToStringLength (Some ["5"; "6"])))).
Proof. reflexivity. Qed.

Example embedded_struct_is_flattened :
  MarshalValues itemMarshaler
    (VStruct "Item" ItemDecl
       [VStruct "Base" BaseDecl [VString "x"]; VString "y"])
  = Return (Some {["id" := Some ["x"]; "name" := Some ["y"]]}) None.
Proof. vm_compute. reflexivity. Qed.

Example embedded_struct_is_decoded_from_the_same_values :
  UnmarshalValues (itemUnmarshaler Opt) (zero Item)
    {["id" := Some ["x"]; "name" := Some ["y"]]} defaultUnmarshalOptions
  = (VStruct "Item" ItemDecl
       [VStruct "Base" BaseDecl [VString "x"]; VString "y"], Done).
Proof. vm_compute. reflexivity. Qed.

Example required_field_of_embedded_struct_names_the_embedding_field :
  UnmarshalValues (itemUnmarshaler Req) (zero Item)
    {["name" := Some ["y"]]} defaultUnmarshalOptions
  = (VStruct "Item" ItemDecl
       [VStruct "Base" BaseDecl [VString ""]; VString "y"],
     Failed (reqError
               (EmbeddedField "Base"
                  (reqError (MissingRequiredField "id" Base) "id"))
               "Base")).
Proof. vm_compute. reflexivity. Qed.

(** ** String and bool fields under KeepEmpty *)

Lemma string_field_round_trips fm fum s dx :
  Marshaler_ fm = primitiveMarshalerFunc marshalString ->
  Unmarshaler_ fum = primitiveUnmarshalerFunc unmarshalString ->
  TagMarshalPresence (Tag fm) = KeepEmpty ->
  fieldRoundTrips fm fum (VString s) (VString dx) defaultUnmarshalOptions.
Proof.
  intros Hm Hu Hkeep.
  apply emitted_field_round_trips with (a := Some [s]).
  - by rewrite Hkeep.
  - by rewrite Hm.
  - simpl. lia.
  - by rewrite Hu.
Qed.

Lemma bool_field_round_trips fm fum b dx :
  Marshaler_ fm = primitiveMarshalerFunc marshalBool ->
  Unmarshaler_ fum = primitiveUnmarshalerFunc unmarshalBool ->
  TagMarshalPresence (Tag fm) = KeepEmpty ->
  fieldRoundTrips fm fum (VBool b) (VBool dx) defaultUnmarshalOptions.
Proof.
  intros Hm Hu Hkeep.
  apply emitted_field_round_trips with (a := Some [FormatBool b]).
  - by rewrite Hkeep.
  - by rewrite Hm.
  - simpl. lia.
  - rewrite Hu. apply bool_round_trips.
Qed.

Lemma slice_field_round_trips fm fum e em eu l ss opts :
  Marshaler_ fm = arrayAndSliceMarshaler (TSlice e) em ->
  Unmarshaler_ fum = sliceUnmarshaler (TSlice e) eu ->
  l <> [] ->
  Forall2 (fun x s =>
             Marshal em x = Return (Some [s]) None
             /\ Unmarshal eu (zero e) (Some [s]) opts = (x, Done)) l ss ->
  fieldRoundTrips fm fum (VSlice e (Some l)) (VSlice e None) opts.
Proof.
  intros Hm Hu Hne Hall.
  destruct (slice_round_trips e em eu l ss opts Hne Hall) as [Henc Hdec].
  apply emitted_field_round_trips with (a := Some ss).
  - destruct l; [done|]. simpl. apply andb_false_r.
  - by rewrite Hm.
  - apply Forall2_length in Hall. destruct l; [done|].
    destruct ss; [done|]. simpl. lia.
  - by rewrite Hu.
Qed.

(** * Further properties *)

(** ** Zero values and typed values *)

Lemma typed_elements e l :
  forallb (fun x => bool_decide (typeOf x = e) && wellTyped x) l = true
  <-> Forall (fun x => typeOf x = e /\ wellTyped x = true) l.
Proof.
  induction l as [|x l IH]; simpl.
  - split; [constructor|done].
  - rewrite andb_true_iff, IH, Forall_cons, andb_true_iff, bool_decide_eq_true.
    done.
Qed.

Lemma forallb_Forall {A} (f : A -> bool) l :
  forallb f l = true <-> Forall (fun x => f x = true) l.
Proof.
  induction l as [|x l IH]; simpl.
  - split; [constructor|done].
  - by rewrite andb_true_iff, IH, Forall_cons.
Qed.

Lemma zero_is_typed t :
  typeOf (zero t) = t /\ wellTyped (zero t) = true /\ slicesNil (zero t) = true.
Proof.
  induction t as [| | | |e IH|e IH|n e IH|k e _ _|n fs IH]
    using rtype_fields_ind; try done.
  - destruct IH as (Ht & Hw & Hs). simpl. rewrite length_replicate.
    split; [done|]. split.
    + apply typed_elements. apply Forall_replicate. done.
    + apply forallb_Forall. by apply Forall_replicate.
  - simpl. split; [done|].
    induction IH as [|[x t] fs (Ht & Hw & Hs) _ IHfs]; [done|].
    simpl in *. destruct IHfs as [IH1 IH2].
    rewrite Ht, Hw, Hs, IH1, IH2. rewrite bool_decide_eq_true_2 by done. done.
Qed.

(** ** Decoders built by the constructors do not panic *)

Lemma unmarshalIndexes_safe f wrap e a :
  (forall x s,
     typeOf x = e -> wellTyped x = true -> slicesNil x = true ->
     (f x (Some [s])).2 <> Panicked
     /\ typeOf (f x (Some [s])).1 = e
     /\ wellTyped (f x (Some [s])).1 = true) ->
  forall v l i,
    elems v = Some l ->
    i + length a <= length l ->
    Forall (fun x => typeOf x = e /\ wellTyped x = true) l ->
    (forall j x, i <= j -> l !! j = Some x -> slicesNil x = true) ->
    exists l',
      (unmarshalIndexes f wrap v a i).1 = withElems v l'
      /\ length l' = length l
      /\ Forall (fun x => typeOf x = e /\ wellTyped x = true) l'
      /\ (unmarshalIndexes f wrap v a i).2 <> Panicked.
Proof.
  intros Hf. induction a as [|s a IH]; intros v l i Hv Hlen Hty Hnil; simpl.
  { exists l. by rewrite (withElems_id _ _ Hv). }
  rewrite (IndexAddr_elems _ _ _ Hv).
  destruct (lookup_lt_is_Some_2 l i) as [x Hx]; [simpl in Hlen; lia|].
  rewrite Hx.
  destruct (proj1 (Forall_lookup _ l) Hty i x Hx) as [Hxt Hxw].
  destruct (Hf x s Hxt Hxw (Hnil i x ltac:(lia) Hx)) as (Hnp & Ht' & Hw').
  destruct (f x (Some [s])) as [x' o]. simpl in Hnp, Ht', Hw'.
  rewrite (SetIndex_elems _ _ _ _ Hv).
  assert (Hty' : Forall (fun y => typeOf y = e /\ wellTyped y = true)
                   (<[i := x']> l)).
  { apply Forall_insert; done. }
  destruct o as [|err|]; [|simpl|done].
  - destruct (IH (withElems v (<[i := x']> l)) (<[i := x']> l) (S i))
      as (l' & Hrun & Hlen' & Hall & Hnp').
    + by eapply elems_withElems.
    + rewrite length_insert. simpl in Hlen. lia.
    + done.
    + intros j y Hj Hy. rewrite list_lookup_insert_ne in Hy by lia.
      apply (Hnil j y); [lia|done].
    + exists l'. rewrite Hrun, withElems_withElems.
      rewrite length_insert in Hlen'. done.
  - exists (<[i := x']> l). rewrite length_insert. done.
Qed.

Lemma typed_slice_is_nil e s :
  slicesNil (VSlice e s) = true -> s = None.
Proof. by destruct s. Qed.

(** X1. The pointer, array and slice decoders that the constructors build
    pass on the guarantees of the element decoder the factory gave them:
    when that decoder, on a destination of the element type without
    allocated slices, does not panic and leaves a value of the element
    type, then so does the built decoder on a destination of its own type
    without allocated slices, for every input. *)
Theorem constructed_decoders_do_not_panic
    (factory : UnmarshalerFactory) (t : rtype) (u : Unmarshaler) :
  (forall et eu, factory et = (eu, None) -> decodesSafely eu et) ->
  newPtrUnmarshaler t factory = (u, None)
  \/ newArrayUnmarshaler t factory = (u, None)
  \/ newSliceUnmarshaler t factory = (u, None) ->
  decodesSafely u t.
Proof.
  intros Hfactory Hbuilt v a opts Hv Hw Hnil.
  destruct Hbuilt as [Hb|[Hb|Hb]].
  - (* newPtrUnmarshaler *)
    unfold newPtrUnmarshaler in Hb. destruct t as [| | | |et| | | |]; try done.
    destruct (factory et) as [eu [err|]] eqn:Hfac; [done|].
    inversion Hb; subst u. specialize (Hfactory et eu Hfac).
    destruct v as [| | | |e p| | | |]; try done. inversion Hv; subst e.
    cbn [Unmarshal typeOf]. rewrite type_check_passes.
    destruct a as [l|]; [|done].
    rewrite (bool_decide_eq_false_2 (et <> et)) by (intros Hne; by apply Hne).
    rewrite andb_false_r.
    assert (Hx : typeOf (default (zero et) p) = et
                 /\ wellTyped (default (zero et) p) = true
                 /\ slicesNil (default (zero et) p) = true).
    { destruct p as [x|]; [|apply zero_is_typed]. simpl in Hw, Hnil |- *.
      apply andb_true_iff in Hw as [Ht Hw].
      apply bool_decide_eq_true in Ht. done. }
    destruct Hx as (Hxt & Hxw & Hxn).
    destruct (Hfactory (default (zero et) p) (Some l) opts Hxt Hxw Hxn)
      as (Hnp & Ht' & Hw').
    destruct (Unmarshal eu (default (zero et) p) (Some l) opts) as [x' o].
    simpl in *. split; [done|]. split; [done|].
    by rewrite Ht', Hw', bool_decide_eq_true_2.
  - (* newArrayUnmarshaler *)
    unfold newArrayUnmarshaler in Hb.
    destruct t as [| | | | | |n et| |]; try done.
    destruct (factory et) as [eu [err|]] eqn:Hfac; [done|].
    inversion Hb; subst u. specialize (Hfactory et eu Hfac).
    destruct v as [| | | | | |e l| |]; try done. inversion Hv; subst e n.
    cbn [Unmarshal typeOf]. rewrite type_check_passes.
    destruct a as [ss|]; [|done].
    destruct (Nat.eqb_spec (length ss) (length l)) as [Hlen|Hlen]; [|done].
    simpl in Hw, Hnil. apply typed_elements in Hw.
    destruct (unmarshalIndexes_safe
                (fun x a => Unmarshal eu x a opts) UnmarshalingArrayIndex et ss
                (fun x s Ht Hxw Hxn => Hfactory x (Some [s]) opts Ht Hxw Hxn)
                (VArray et l) l 0 eq_refl ltac:(simpl; lia) Hw)
      as (l' & Hrun & Hlen' & Hall & Hnp).
    { intros j x _ Hx. apply forallb_Forall in Hnil.
      by apply (proj1 (Forall_lookup _ l) Hnil j x). }
    cbn [negb]. unfold strs in *. split; [done|]. rewrite Hrun. simpl.
    rewrite Hlen'.
    split; [done|]. by apply typed_elements.
  - (* newSliceUnmarshaler *)
    unfold newSliceUnmarshaler in Hb.
    destruct t as [| | | | |et| | |]; try done.
    destruct (factory et) as [eu [err|]] eqn:Hfac; [done|].
    inversion Hb; subst u. specialize (Hfactory et eu Hfac).
    destruct v as [| | | | |e s| | |]; try done. inversion Hv; subst e.
    apply typed_slice_is_nil in Hnil. subst s.
    cbn [Unmarshal typeOf]. rewrite type_check_passes. cbn [IsNil].
    rewrite bool_decide_eq_true_2 by done.
    destruct (unmarshalIndexes_safe
                (fun x a => Unmarshal eu x a opts) UnmarshalingSliceIndex et
                (default [] a)
                (fun x s Ht Hxw Hxn => Hfactory x (Some [s]) opts Ht Hxw Hxn)
                (MakeSlice et (len a)) (replicate (len a) (zero et)) 0 eq_refl)
      as (l' & Hrun & Hlen' & Hall & Hnp).
    { rewrite length_replicate, length_default_strs. simpl. lia. }
    { apply Forall_replicate. split; apply zero_is_typed. }
    { intros j x _ Hx. apply lookup_replicate in Hx as [-> _].
      apply zero_is_typed. }
    unfold strs in *. split; [done|]. rewrite Hrun. simpl. split; [done|].
    by apply typed_elements.
Qed.

Lemma scalar_decoders_are_safe et eu :
  scalarUnmarshalers et = (eu, None) -> decodesSafely eu et.
Proof.
  intros Hfac v a opts Hv Hw Hnil.
  destruct et; simpl in Hfac; inversion Hfac; subst eu;
    destruct v; try done; cbn [Unmarshal]; unfold primitiveUnmarshal;
    (destruct a as [l|]; [|done]);
    destruct (SliceToString opts (Some l)) as [str [err|]]; try done.
  simpl. by destruct (ParseBool str) as [b' [err|]].
Qed.

Lemma constructed_decoders_do_not_panic_witness :
  decodesSafely (sliceUnmarshaler (TSlice TString)
                   (primitiveUnmarshalerFunc unmarshalString))
    (TSlice TString).
Proof.
  apply (constructed_decoders_do_not_panic scalarUnmarshalers).
  - exact scalar_decoders_are_safe.
  - right. right. reflexivity.
Defined.

(** ** Encoders built by the constructors *)

Lemma marshalIndexes_safe f v l :
  elems v = Some l ->
  (forall x, x ∈ l -> f x <> Panic) ->
  forall n i, i + n <= length l -> marshalIndexes f v n i <> Panic.
Proof.
  intros Hv Hf. induction n as [|n IH]; intros i Hi; simpl; [done|].
  rewrite (Index_elems _ _ _ Hv).
  destruct (lookup_lt_is_Some_2 l i) as [x Hx]; [lia|]. rewrite Hx.
  pose proof (Hf x (list_elem_of_lookup_2 _ _ _ Hx)) as Hfx.
  destruct (f x) as [a2 [err|]|]; [done| |done].
  destruct a2 as [[|s [|s' a2]]|]; try done.
  specialize (IH (S i) ltac:(lia)).
  by destruct (marshalIndexes f v n (S i)) as [a [err|]|].
Qed.

Lemma marshalIndexes_success f v :
  forall n i a,
    marshalIndexes f v n i = Return a None ->
    length a = n
    /\ forall j s, a !! j = Some s ->
         exists x, Index v (i + j) = Some x /\ f x = Return (Some [s]) None.
Proof.
  induction n as [|n IH]; intros i a Hrun; simpl in Hrun.
  { inversion Hrun; subst a. split; [done|]. intros j s Hj.
    by rewrite lookup_nil in Hj. }
  destruct (Index v i) as [x|] eqn:Hx; [|done].
  destruct (f x) as [a2 [err|]|] eqn:Hfx; [done| |done].
  destruct a2 as [[|s0 [|s' a2]]|]; try done.
  destruct (marshalIndexes f v n (S i)) as [a' [err|]|] eqn:Hrest;
    [done| |done].
  inversion Hrun; subst a. destruct (IH _ _ Hrest) as [Hlen Hall].
  split; [simpl; lia|]. intros [|j] s Hj; simpl in Hj.
  - inversion Hj; subst s. exists x. by rewrite Nat.add_0_r.
  - destruct (Hall j s Hj) as (y & Hy & Hfy). exists y.
    split; [|done]. by replace (i + S j) with (S i + j) by lia.
Qed.

Lemma marshalIndexes_error_is_empty f v :
  forall n i a err, marshalIndexes f v n i = Return a (Some err) -> a = [].
Proof.
  induction n as [|n IH]; intros i a err Hrun; simpl in Hrun; [done|].
  destruct (Index v i) as [x|]; [|done].
  destruct (f x) as [a2 [e|]|]; [by inversion Hrun| |done].
  destruct a2 as [[|s0 [|s' a2]]|]; try (by inversion Hrun).
  destruct (marshalIndexes f v n (S i)) as [a' [e|]|] eqn:Hrest;
    [|done|done].
  inversion Hrun; subst. by eapply IH.
Qed.

(** X2. The pointer and sequence encoders that the constructors build do
    not panic on a value of their type when the element encoder the
    factory gave them does not panic on values of the element type. *)
Theorem constructed_encoders_do_not_panic
    (factory : MarshalerFactory) (t : rtype) (m : Marshaler) :
  (forall et em, factory et = (em, None) -> encodesSafely em et) ->
  newPtrMarshaler t factory = (m, None)
  \/ newArrayAndSliceMarshaler t factory = (m, None) ->
  encodesSafely m t.
Proof.
  intros Hfactory Hbuilt v Hv Hw.
  assert (Hseq : forall et em l,
            encodesSafely em et ->
            elems v = Some l ->
            Forall (fun x => typeOf x = et /\ wellTyped x = true) l ->
            typeOf v = t ->
            Marshal (arrayAndSliceMarshaler t em) v <> Panic).
  { intros et em l Hem Hl Hall Ht. cbn [Marshal]. rewrite Ht, type_check_passes.
    rewrite (Len_elems _ _ Hl). destruct (length l) as [|n] eqn:Hlen; [done|].
    pose proof (marshalIndexes_safe (Marshal em) v l Hl) as Hsafe.
    specialize (Hsafe (fun x Hx =>
                         Hem x (proj1 (proj1 (Forall_forall _ l) Hall x Hx))
                           (proj2 (proj1 (Forall_forall _ l) Hall x Hx)))).
    specialize (Hsafe (S n) 0 ltac:(lia)).
    by destruct (marshalIndexes (Marshal em) v (S n) 0) as [a [err|]|]. }
  destruct Hbuilt as [Hb|Hb].
  - unfold newPtrMarshaler in Hb. destruct t as [| | | |et| | | |]; try done.
    destruct (factory et) as [em [err|]] eqn:Hfac; [done|].
    inversion Hb; subst m. specialize (Hfactory et em Hfac).
    destruct v as [| | | |e p| | | |]; try done. inversion Hv; subst e.
    cbn [Marshal typeOf]. rewrite type_check_passes.
    destruct p as [x|]; simpl; [|done].
    simpl in Hw. apply andb_true_iff in Hw as [Ht Hw].
    apply bool_decide_eq_true in Ht. by apply Hfactory.
  - unfold newArrayAndSliceMarshaler in Hb.
    destruct t as [| | | | |et|n et| |]; try done.
    + destruct (factory et) as [em [err|]] eqn:Hfac; [done|].
      inversion Hb; subst m. specialize (Hfactory et em Hfac).
      destruct v as [| | | | |e s| | |]; try done. inversion Hv; subst e.
      destruct s as [l|].
      * apply (Hseq et em l); try done. by apply typed_elements.
      * cbn [Marshal typeOf]. by rewrite type_check_passes.
    + destruct (factory et) as [em [err|]] eqn:Hfac; [done|].
      inversion Hb; subst m. specialize (Hfactory et em Hfac).
      destruct v as [| | | | | |e l| |]; try done. inversion Hv; subst e n.
      apply (Hseq et em l); try done. by apply typed_elements.
Qed.

Lemma scalar_encoders_are_safe et em :
  scalarMarshalers et = (em, None) -> encodesSafely em et.
Proof.
  intros Hfac v Hv Hw.
  destruct et; simpl in Hfac; inversion Hfac; subst em;
    destruct v; try done.
Qed.

Lemma constructed_encoders_do_not_panic_witness :
  encodesSafely (ptrMarshaler (TPtr TString)
                   (primitiveMarshalerFunc marshalString))
    (TPtr TString).
Proof.
  apply (constructed_encoders_do_not_panic scalarMarshalers).
  - exact scalar_encoders_are_safe.
  - left. reflexivity.
Defined.

(** X3. What Marshal of a sequence codec returns: with no error, exactly
    one string per element of the sequence, each the single string that
    the element encoder returned for the element at its index, and the
    nil []string, never an allocated empty one, for a sequence without
    elements; with an error, the nil []string. *)
Theorem sequence_encoding_has_one_string_per_element
    (em : Marshaler) (v : value) :
  match Marshal (arrayAndSliceMarshaler (typeOf v) em) v with
  | Return a None =>
      Len v = Some (len a)
      /\ a <> Some []
      /\ forall j s, default [] a !! j = Some s ->
           exists x, Index v j = Some x
                     /\ Marshal em x = Return (Some [s]) None
  | Return a (Some _) => a = None
  | Panic => True
  end.
Proof.
  cbn [Marshal]. rewrite type_check_passes.
  destruct (Len v) as [[|n]|] eqn:Hlen; [| |done].
  - split; [done|]. split; [done|]. intros j s Hj. simpl in Hj.
    by rewrite lookup_nil in Hj.
  - destruct (marshalIndexes (Marshal em) v (S n) 0) as [a [err|]|] eqn:Hrun;
      [done| |done].
    destruct (marshalIndexes_success _ _ _ _ _ Hrun) as [Hl Hall].
    simpl. rewrite Hl. split; [done|]. split.
    + intros Heq. inversion Heq; subst a. done.
    + intros j s Hj. apply (Hall j s Hj).
Qed.

(** ** What a struct codec emits and what it reads *)

Lemma marshalFields_sound fs v :
  forall vs0 vs k a,
    marshalFields fs v vs0 = Return vs None ->
    vs !! k = Some a ->
    vs0 !! k = Some a
    \/ exists fm fv,
         fm ∈ fs /\ MName fm = k
         /\ Field v (FieldIndex fm) = Some fv
         /\ Marshal (Marshaler_ fm) fv = Return a None
         /\ len a <> 0.
Proof.
  induction fs as [|fm fs IH]; intros vs0 vs k a Hrun Hk; simpl in Hrun.
  { inversion Hrun; subst. by left. }
  assert (Hlift : (exists fm' fv, fm' ∈ fs /\ MName fm' = k
                     /\ Field v (FieldIndex fm') = Some fv
                     /\ Marshal (Marshaler_ fm') fv = Return a None
                     /\ len a <> 0) ->
                  exists fm' fv, fm' ∈ fm :: fs /\ MName fm' = k
                     /\ Field v (FieldIndex fm') = Some fv
                     /\ Marshal (Marshaler_ fm') fv = Return a None
                     /\ len a <> 0).
  { intros (fm' & fv & Hin & Hrest). exists fm', fv.
    split; [apply elem_of_cons; by right|done]. }
  destruct (Field v (FieldIndex fm)) as [fv|] eqn:Hfv; [|done].
  destruct (_ && _).
  { destruct (IH _ _ _ _ Hrun Hk) as [?|?]; [by left|right; by apply Hlift]. }
  destruct (Marshal (Marshaler_ fm) fv) as [a' [err|]|] eqn:Hm; [done| |done].
  destruct (IH _ _ _ _ Hrun Hk) as [Hold|?]; [|right; by apply Hlift].
  destruct (Nat.eqb_spec (len a') 0) as [Hz|Hnz]; [by left|].
  destruct (decide (Name (Tag fm) = k)) as [Heq|Hne].
  - rewrite Heq, lookup_insert_eq in Hold. inversion Hold; subst a'.
    right. exists fm, fv. split; [apply elem_of_cons; by left|done].
  - rewrite lookup_insert_ne in Hold by done. by left.
Qed.

Lemma marshalEmbedded_sound {V}
    (encode : V -> value -> ret (option (gmap string strs))) t efs v :
  forall vs0 vs k a,
    marshalEmbedded encode t efs v vs0 = Return (Some vs) None ->
    vs !! k = Some a ->
    vs0 !! k = Some a
    \/ exists idx vm fv evs,
         (idx, vm) ∈ efs /\ Field v idx = Some fv
         /\ encode vm fv = Return (Some evs) None
         /\ evs !! k = Some a.
Proof.
  induction efs as [|[idx vm] efs IH]; intros vs0 vs k a Hrun Hk;
    simpl in Hrun.
  { inversion Hrun; subst. by left. }
  destruct (Field v idx) as [fv|] eqn:Hfv; [|done].
  destruct (encode vm fv) as [evs [err|]|] eqn:Henc; [| |done].
  { by destruct (FieldName t idx). }
  destruct (IH _ _ _ _ Hrun Hk) as [Hold|(i & m & x & e & Hin & Hrest)].
  - destruct evs as [evs|]; simpl in Hold; [|by left].
    apply lookup_union_Some_raw in Hold as [Hnew|[_ Hold]]; [|by left].
    right. exists idx, vm, fv, evs. split; [apply elem_of_cons; by left|done].
  - right. exists i, m, x, e. split; [apply elem_of_cons; by right|done].
Qed.

(** X4. Every entry of the url.Values that a struct codec returns without
    error is accounted for: it is the encoding, of at least one string,
    that the encoder of one of the codec's fields returned for that field
    under the field's wire key, or it is an entry that one of the
    flattened sub-records emitted. No other key is ever written, and a
    field never leaves an empty list under its key. *)
Theorem struct_encoding_only_holds_field_entries
    (T : rtype) (efs : list (nat * ValuesMarshaler))
    (fms : list fieldMarshaler) (v : value) (vs : gmap string strs)
    (k : string) (a : strs) :
  MarshalValues (structMarshaler T efs fms) v = Return (Some vs) None ->
  vs !! k = Some a ->
  (exists fm fv,
     fm ∈ fms /\ MName fm = k
     /\ Field v (FieldIndex fm) = Some fv
     /\ Marshal (Marshaler_ fm) fv = Return a None
     /\ len a <> 0)
  \/ (exists idx vm fv evs,
        (idx, vm) ∈ efs /\ Field v idx = Some fv
        /\ MarshalValues vm fv = Return (Some evs) None
        /\ evs !! k = Some a).
Proof.
  intros Hrun Hk.
  destruct (struct_encode_success _ _ _ _ _ Hrun) as (vs1 & Hfields & Hemb).
  destruct (marshalEmbedded_sound _ _ _ _ _ _ _ _ Hemb Hk) as [Hold|?];
    [|by right].
  destruct (marshalFields_sound _ _ _ _ _ _ Hfields Hold) as [Hempty|?];
    [|by left].
  by rewrite lookup_empty in Hempty.
Qed.

Lemma struct_encoding_only_holds_field_entries_witness :
  (exists fm fv,
     fm ∈ [fmEntry 1 stringMarshaler "name" KeepEmpty] /\ MName fm = "name"
     /\ Field (VStruct "Item" ItemDecl
                 [VStruct "Base" BaseDecl [VString "x"]; VString "y"])
          (FieldIndex fm) = Some fv
     /\ Marshal (Marshaler_ fm) fv = Return (Some ["y"]) None
     /\ len (Some ["y"]) <> 0)
  \/ (exists idx vm fv evs,
        (idx, vm) ∈ [(0, structMarshaler Base []
                           [fmEntry 0 stringMarshaler "id" KeepEmpty])]
        /\ Field (VStruct "Item" ItemDecl
                    [VStruct "Base" BaseDecl [VString "x"]; VString "y"])
             idx = Some fv
        /\ MarshalValues vm fv = Return (Some evs) None
        /\ evs !! "name" = Some (Some ["y"])).
Proof.
  apply (struct_encoding_only_holds_field_entries Item
           [(0, structMarshaler Base []
                  [fmEntry 0 stringMarshaler "id" KeepEmpty])]
           [fmEntry 1 stringMarshaler "name" KeepEmpty]
           (VStruct "Item" ItemDecl
              [VStruct "Base" BaseDecl [VString "x"]; VString "y"])
           {["id" := Some ["x"]; "name" := Some ["y"]]}
           "name" (Some ["y"]));
    vm_compute; reflexivity.
Defined.

Lemma marshalEmbedded_app {V}
    (encode : V -> value -> ret (option (gmap string strs))) t efs1 efs2 v :
  forall vs0,
    marshalEmbedded encode t (efs1 ++ efs2) v vs0 =
    match marshalEmbedded encode t efs1 v vs0 with
    | Return (Some vs1) None => marshalEmbedded encode t efs2 v vs1
    | r => r
    end.
Proof.
  induction efs1 as [|[idx vm] efs1 IH]; intros vs0; simpl.
  { by destruct (marshalEmbedded encode t efs2 v vs0) as [[?|] [?|]|]. }
  destruct (Field v idx) as [fv|]; [|done].
  destruct (encode vm fv) as [evs [err|]|]; [|apply IH|done].
  by destruct (FieldName t idx).
Qed.

Lemma marshalEmbedded_returns_values {V}
    (encode : V -> value -> ret (option (gmap string strs))) t efs v :
  forall vs0 r,
    marshalEmbedded encode t efs v vs0 = Return r None -> exists vs, r = Some vs.
Proof.
  induction efs as [|[idx vm] efs IH]; intros vs0 r Hrun; simpl in Hrun.
  { inversion Hrun. by eexists. }
  destruct (Field v idx) as [fv|]; [|done].
  destruct (encode vm fv) as [evs [err|]|]; [| by eapply IH|done].
  by destruct (FieldName t idx).
Qed.

(** X5. Flattened sub-records are merged after the direct fields and in
    declaration order, each over what is there: an entry that a flattened
    sub-record emits under a key is in the output, in place of the entry
    of a direct field or of an earlier sub-record under that key, unless a
    later flattened sub-record emits the key as well. *)
Theorem later_flattened_record_wins
    (T : rtype) (efs1 efs2 : list (nat * ValuesMarshaler))
    (idx : nat) (vm : ValuesMarshaler) (fms : list fieldMarshaler)
    (v fv : value) (vs evs : gmap string strs) (k : string) (a : strs) :
  MarshalValues (structMarshaler T (efs1 ++ (idx, vm) :: efs2) fms) v
  = Return (Some vs) None ->
  Field v idx = Some fv ->
  MarshalValues vm fv = Return (Some evs) None ->
  evs !! k = Some a ->
  (forall idx' vm' x evs', (idx', vm') ∈ efs2 ->
     MarshalValues vm' x = Return (Some evs') None -> evs' !! k = None) ->
  vs !! k = Some a.
Proof.
  intros Hrun Hfv Henc Hk Hlater.
  destruct (struct_encode_success _ _ _ _ _ Hrun) as (vs1 & _ & Hemb).
  rewrite marshalEmbedded_app in Hemb.
  destruct (marshalEmbedded _ (typeOf v) efs1 v vs1) as [[vs2|] [err|]|];
    try done.
  simpl in Hemb. rewrite Hfv, Henc in Hemb.
  rewrite (marshalEmbedded_other _ _ _ _ _ _ k Hemb Hlater). simpl.
  by apply lookup_union_Some_l.
Qed.

Lemma later_flattened_record_wins_witness :
  MarshalValues
    (structMarshaler Both [(0, leftMarshaler); (1, rightMarshaler)]
       [fmEntry 2 stringMarshaler "id" KeepEmpty]) bothValue
  = Return (Some {["id" := Some ["b"]]}) None
  /\ ({["id" := Some ["b"]]} : gmap string strs) !! "id" = Some (Some ["b"]).
Proof.
  assert (Hrun : MarshalValues
                   (structMarshaler Both [(0, leftMarshaler); (1, rightMarshaler)]
                      [fmEntry 2 stringMarshaler "id" KeepEmpty]) bothValue
                 = Return (Some {["id" := Some ["b"]]}) None)
    by (vm_compute; reflexivity).
  split; [exact Hrun|].
  apply (later_flattened_record_wins Both [(0, leftMarshaler)] [] 1
           rightMarshaler [fmEntry 2 stringMarshaler "id" KeepEmpty]
           bothValue (VStruct "Right" LeftDecl [VString "b"])
           {["id" := Some ["b"]]} {["id" := Some ["b"]]} "id" (Some ["b"])
           Hrun).
  - reflexivity.
  - vm_compute. reflexivity.
  - vm_compute. reflexivity.
  - intros idx' vm' x evs' Hin. by apply elem_of_nil in Hin.
Defined.

Lemma unmarshalField_agrees t fum v vs vs' opts :
  vs' !! UName fum = vs !! UName fum ->
  unmarshalField t fum v vs' opts = unmarshalField t fum v vs opts.
Proof. unfold unmarshalField, UName. by intros ->. Qed.

Lemma unmarshalFields_agree t fums vs vs' opts :
  (forall fum, fum ∈ fums -> vs' !! UName fum = vs !! UName fum) ->
  forall v, unmarshalFields t fums v vs' opts = unmarshalFields t fums v vs opts.
Proof.
  induction fums as [|fum fums IH]; intros Hkeys v; simpl; [done|].
  rewrite (unmarshalField_agrees t fum v vs vs' opts)
    by (apply Hkeys, elem_of_cons; by left).
  destruct (unmarshalField t fum v vs opts) as [v' [|err|]]; try done.
  apply IH. intros f Hf. apply Hkeys, elem_of_cons. by right.
Qed.

Lemma unmarshalEmbedded_agree {U} (decode decode' : U -> value -> value * outcome)
    t efs :
  (forall idx vum fv, (idx, vum) ∈ efs -> decode' vum fv = decode vum fv) ->
  forall v, unmarshalEmbedded decode' t efs v = unmarshalEmbedded decode t efs v.
Proof.
  induction efs as [|[idx vum] efs IH]; intros Hdec v; simpl; [done|].
  destruct (Field v idx) as [fv|]; [|done].
  rewrite (Hdec idx vum fv) by (apply elem_of_cons; by left).
  destruct (decode vum fv) as [fv' [|err|]]; try done.
  apply IH. intros i u x Hin. apply (Hdec i u x), elem_of_cons. by right.
Qed.

(** X6. A struct decoder reads from the url.Values the wire keys of its
    entries and nothing else: two inputs that hold the same under the key
    of every entry, and on which the decoders of the flattened sub-records
    do the same, are decoded to the same result, whatever other keys they
    hold. A key that no field stands for is ignored without an error. *)
Theorem struct_decoder_reads_only_its_keys
    (T : rtype) (efs : list (nat * ValuesUnmarshaler))
    (fums : list fieldUnmarshaler) (v : value) (vs vs' : gmap string strs)
    (opts : UnmarshalOptions) :
  (forall fum, fum ∈ fums -> vs' !! UName fum = vs !! UName fum) ->
  (forall idx vum fv, (idx, vum) ∈ efs ->
     UnmarshalValues vum fv vs' opts = UnmarshalValues vum fv vs opts) ->
  UnmarshalValues (structUnmarshaler T efs fums) v vs' opts
  = UnmarshalValues (structUnmarshaler T efs fums) v vs opts.
Proof.
  intros Hkeys Hemb. cbn [UnmarshalValues].
  destruct (bool_decide (typeOf v <> T)); [done|].
  rewrite (unmarshalFields_agree _ _ _ _ _ Hkeys).
  destruct (unmarshalFields (typeOf v) fums v vs opts) as [v1 [|err|]];
    try done.
  by apply unmarshalEmbedded_agree.
Qed.

Lemma struct_decoder_reads_only_its_keys_witness :
  UnmarshalValues formUnmarshaler (zero Form)
    {["title" := Some ["a"]; "page" := Some ["7"; "8"]]} defaultUnmarshalOptions
  = UnmarshalValues formUnmarshaler (zero Form)
      {["title" := Some ["a"]]} defaultUnmarshalOptions.
Proof.
  apply (struct_decoder_reads_only_its_keys Form [] [formTitle; formDone]).
  - intros fum Hfum.
    apply elem_of_cons in Hfum as [->|Hfum]; [vm_compute; reflexivity|].
    apply elem_of_cons in Hfum as [->|Hfum]; [vm_compute; reflexivity|].
    by apply elem_of_nil in Hfum.
  - intros idx vum fv Hin. by apply elem_of_nil in Hin.
Defined.

(** ** Struct codecs do not panic on typed values *)

Lemma wellTyped_struct n d fs :
  wellTyped (VStruct n d fs) = true <-> typedFields fs d.
Proof.
  unfold typedFields. simpl. revert d.
  induction fs as [|x fs IH]; intros [|[fname ft] d]; simpl.
  - split; [constructor|done].
  - split; [done|]. intros Hf. inversion Hf.
  - split; [done|]. intros Hf. inversion Hf.
  - rewrite !andb_true_iff, bool_decide_eq_true, IH. split.
    + intros [[Ht Hw] Hrest]. by constructor.
    + intros Hf. inversion Hf; subst. simpl in *. tauto.
Qed.

Lemma typedFields_lookup fs d i fname ft :
  typedFields fs d -> d !! i = Some (fname, ft) ->
  exists x, fs !! i = Some x /\ typeOf x = ft /\ wellTyped x = true.
Proof.
  intros Hf Hd. destruct (Forall2_lookup_r _ _ _ _ _ Hf Hd) as (x & Hx & Ht & Hw).
  by exists x.
Qed.

Lemma typedFields_insert fs d i fname ft x :
  typedFields fs d -> d !! i = Some (fname, ft) ->
  typeOf x = ft -> wellTyped x = true ->
  typedFields (<[i := x]> fs) d.
Proof.
  intros Hf Hd Ht Hw. unfold typedFields.
  rewrite <- (list_insert_id d i (fname, ft)) by done.
  apply Forall2_insert; done.
Qed.

Lemma unmarshalField_safe t n d fum fs vs opts fname ft :
  d !! UFieldIndex fum = Some (fname, ft) ->
  decodesSafely (Unmarshaler_ fum) ft ->
  typedFields fs d ->
  (forall x, fs !! UFieldIndex fum = Some x -> slicesNil x = true) ->
  exists fs',
    (unmarshalField t fum (VStruct n d fs) vs opts).1 = VStruct n d fs'
    /\ typedFields fs' d
    /\ (forall j, j <> UFieldIndex fum -> fs' !! j = fs !! j)
    /\ (unmarshalField t fum (VStruct n d fs) vs opts).2 <> Panicked.
Proof.
  intros Hd Hsafe Hf Hnil.
  destruct (typedFields_lookup _ _ _ _ _ Hf Hd) as (x & Hx & Ht & Hw).
  assert (Hkeep : exists fs', VStruct n d fs = VStruct n d fs'
                    /\ typedFields fs' d
                    /\ (forall j, j <> UFieldIndex fum -> fs' !! j = fs !! j)).
  { by exists fs. }
  assert (Hdec : forall a,
    exists fs',
      (match Field (VStruct n d fs) (UFieldIndex fum) with
       | None => (VStruct n d fs, Panicked)
       | Some fv =>
           let '(fv', o) := Unmarshal (Unmarshaler_ fum) fv a opts in
           (SetField (VStruct n d fs) (UFieldIndex fum) fv',
            match o with
            | Failed err =>
                Failed (Errorf (UnmarshalingEntry (Name (UTag fum)) err))
            | _ => o
            end)
       end).1 = VStruct n d fs'
      /\ typedFields fs' d
      /\ (forall j, j <> UFieldIndex fum -> fs' !! j = fs !! j)
      /\ (match Field (VStruct n d fs) (UFieldIndex fum) with
          | None => (VStruct n d fs, Panicked)
          | Some fv =>
              let '(fv', o) := Unmarshal (Unmarshaler_ fum) fv a opts in
              (SetField (VStruct n d fs) (UFieldIndex fum) fv',
               match o with
               | Failed err =>
                   Failed (Errorf (UnmarshalingEntry (Name (UTag fum)) err))
               | _ => o
               end)
          end).2 <> Panicked).
  { intros a. simpl. rewrite Hx.
    destruct (Hsafe x a opts Ht Hw (Hnil x Hx)) as (Hnp & Ht' & Hw').
    destruct (Unmarshal (Unmarshaler_ fum) x a opts) as [x' o]. simpl in *.
    exists (<[UFieldIndex fum := x']> fs). split; [done|]. split.
    - by eapply typedFields_insert.
    - split; [|by destruct o].
      intros j Hj. by apply list_lookup_insert_ne. }
  unfold unmarshalField.
  destruct (vs !! Name (UTag fum)) as [a|].
  - destruct (Hdec a) as (fs' & H1 & H2 & H3 & H4). exists fs'.
    destruct (Field (VStruct n d fs) (UFieldIndex fum)) as [fv|]; [|done].
    destruct (Unmarshal (Unmarshaler_ fum) fv a opts) as [fv' [|err|]]; done.
  - destruct (UnmarshalPresence_eqb _ Req).
    { destruct Hkeep as (fs' & H1 & H2 & H3). exists fs'. done. }
    destruct (UnmarshalPresence_eqb _ Nil).
    { destruct Hkeep as (fs' & H1 & H2 & H3). exists fs'. done. }
    destruct (Hdec None) as (fs' & H1 & H2 & H3 & H4). exists fs'.
    destruct (Field (VStruct n d fs) (UFieldIndex fum)) as [fv|]; [|done].
    destruct (Unmarshal (Unmarshaler_ fum) fv None opts) as [fv' [|err|]]; done.
Qed.

Lemma unmarshalFields_safe t n d vs opts fums :
  NoDup (UFieldIndex <$> fums) ->
  (forall fum, fum ∈ fums ->
     exists fname ft, d !! UFieldIndex fum = Some (fname, ft)
                      /\ decodesSafely (Unmarshaler_ fum) ft) ->
  forall fs,
    typedFields fs d ->
    (forall fum x, fum ∈ fums -> fs !! UFieldIndex fum = Some x ->
       slicesNil x = true) ->
    exists fs',
      (unmarshalFields t fums (VStruct n d fs) vs opts).1 = VStruct n d fs'
      /\ typedFields fs' d
      /\ (forall j, j ∉ UFieldIndex <$> fums -> fs' !! j = fs !! j)
      /\ (unmarshalFields t fums (VStruct n d fs) vs opts).2 <> Panicked.
Proof.
  induction fums as [|fum fums IH]; intros Hnd Hsafe fs Hf Hnil; simpl.
  { by exists fs. }
  rewrite fmap_cons in Hnd. apply NoDup_cons in Hnd as [Hfresh Hnd].
  destruct (Hsafe fum) as (fname & ft & Hd & Hdec); [apply elem_of_cons; by left|].
  destruct (unmarshalField_safe t n d fum fs vs opts fname ft Hd Hdec Hf)
    as (fs1 & Hrun & Hf1 & Hother & Hnp).
  { intros x Hx. apply (Hnil fum x); [apply elem_of_cons; by left|done]. }
  destruct (unmarshalField t fum (VStruct n d fs) vs opts) as [v1 o].
  simpl in Hrun, Hnp. subst v1.
  assert (Hkeep : forall j, j ∉ UFieldIndex fum :: (UFieldIndex <$> fums) ->
                    fs1 !! j = fs !! j).
  { intros j Hj. apply Hother. intros ->. apply Hj, elem_of_cons. by left. }
  destruct o as [|err|]; [|by exists fs1|done].
  destruct (IH Hnd) with (fs := fs1) as (fs' & Hrun' & Hf' & Hother' & Hnp').
  - intros f Hin. apply Hsafe, elem_of_cons. by right.
  - done.
  - intros f x Hin Hx. rewrite Hother in Hx.
    + apply (Hnil f x); [apply elem_of_cons; by right|done].
    + intros Heq. apply Hfresh. rewrite <- Heq.
      by apply (list_elem_of_fmap_2 UFieldIndex).
  - exists fs'. split; [done|]. split; [done|]. split; [|done].
    intros j Hj. apply not_elem_of_cons in Hj as [Hne Hj].
    rewrite Hother' by done. by apply Hother.
Qed.

Lemma unmarshalEmbedded_safe (decode : ValuesUnmarshaler -> value -> value * outcome)
    n d efs :
  NoDup (fst <$> efs) ->
  (forall idx vum, (idx, vum) ∈ efs ->
     exists fname ft, d !! idx = Some (fname, ft)
       /\ forall x, typeOf x = ft -> wellTyped x = true -> slicesNil x = true ->
            (decode vum x).2 <> Panicked
            /\ typeOf (decode vum x).1 = ft
            /\ wellTyped (decode vum x).1 = true) ->
  forall fs,
    typedFields fs d ->
    (forall idx vum x, (idx, vum) ∈ efs -> fs !! idx = Some x ->
       slicesNil x = true) ->
    exists fs',
      (unmarshalEmbedded decode (TStruct n d) efs (VStruct n d fs)).1
      = VStruct n d fs'
      /\ typedFields fs' d
      /\ (unmarshalEmbedded decode (TStruct n d) efs (VStruct n d fs)).2
         <> Panicked.
Proof.
  induction efs as [|[idx vum] efs IH]; intros Hnd Hsafe fs Hf Hnil; simpl.
  { by exists fs. }
  rewrite fmap_cons in Hnd. apply NoDup_cons in Hnd as [Hfresh Hnd].
  simpl in Hfresh.
  destruct (Hsafe idx vum) as (fname & ft & Hd & Hdec);
    [apply elem_of_cons; by left|].
  destruct (typedFields_lookup _ _ _ _ _ Hf Hd) as (x & Hx & Ht & Hw).
  rewrite Hx.
  destruct (Hdec x Ht Hw) as (Hnp & Ht' & Hw').
  { apply (Hnil idx vum x); [apply elem_of_cons; by left|done]. }
  destruct (decode vum x) as [x' o]. simpl in Hnp, Ht', Hw'.
  assert (Hf1 : typedFields (<[idx := x']> fs) d)
    by (by eapply typedFields_insert).
  destruct o as [|err|]; [| |done].
  - destruct (IH Hnd) with (fs := <[idx := x']> fs) as (fs' & Hrun & Hf' & Hnp').
    + intros i u Hin. apply Hsafe, elem_of_cons. by right.
    + done.
    + intros i u y Hin Hy. rewrite list_lookup_insert_ne in Hy.
      * apply (Hnil i u y); [apply elem_of_cons; by right|done].
      * intros Heq. apply Hfresh. rewrite Heq.
        by apply (list_elem_of_fmap_2 fst _ (i, u)).
    + by exists fs'.
  - rewrite Hd. simpl. exists (<[idx := x']> fs).
    by destruct (IsRequiredFieldError err).2.
Qed.

(** X7. A struct decoder whose entries address distinct fields of the
    struct type, each with a decoder that can be trusted with the declared
    type of its field, can itself be trusted: on a destination of the
    struct type without allocated slices it does not panic, whatever the
    input, and leaves a value of the struct type. *)
Theorem struct_decoder_does_not_panic
    (n : string) (d : list (string * rtype))
    (efs : list (nat * ValuesUnmarshaler)) (fums : list fieldUnmarshaler) :
  NoDup ((UFieldIndex <$> fums) ++ (fst <$> efs)) ->
  (forall fum, fum ∈ fums ->
     exists fname ft, d !! UFieldIndex fum = Some (fname, ft)
                      /\ decodesSafely (Unmarshaler_ fum) ft) ->
  (forall idx vum, (idx, vum) ∈ efs ->
     exists fname ft, d !! idx = Some (fname, ft)
                      /\ valuesDecodesSafely vum ft) ->
  valuesDecodesSafely (structUnmarshaler (TStruct n d) efs fums) (TStruct n d).
Proof.
  intros Hnd Hfums Hefs v vs opts Hv Hw Hnil.
  destruct v as [| | | | | | | |n' d' fs]; try done. inversion Hv; subst n' d'.
  apply NoDup_app in Hnd as (Hnd1 & Hdisj & Hnd2).
  apply wellTyped_struct in Hw. simpl in Hnil. apply forallb_Forall in Hnil.
  cbn [UnmarshalValues typeOf]. rewrite type_check_passes.
  destruct (unmarshalFields_safe (TStruct n d) n d vs opts fums Hnd1 Hfums fs Hw)
    as (fs1 & Hrun & Hf1 & Hother & Hnp).
  { intros fum x _ Hx. by apply (proj1 (Forall_lookup _ fs) Hnil (UFieldIndex fum) x). }
  destruct (unmarshalFields (TStruct n d) fums (VStruct n d fs) vs opts)
    as [v1 o]. simpl in Hrun, Hnp. subst v1.
  destruct o as [|err|]; [| |done].
  - destruct (unmarshalEmbedded_safe
                (fun vum fv => UnmarshalValues vum fv vs opts) n d efs Hnd2)
      with (fs := fs1) as (fs' & Hrun' & Hf' & Hnp').
    + intros idx vum Hin. destruct (Hefs idx vum Hin) as (fname & ft & Hd & Hs).
      exists fname, ft. split; [done|]. intros x Ht Hxw Hxn.
      apply (Hs x vs opts Ht Hxw Hxn).
    + done.
    + intros idx vum x Hin Hx. rewrite Hother in Hx.
      * by apply (proj1 (Forall_lookup _ fs) Hnil idx x).
      * intros Hidx. apply (Hdisj idx Hidx).
        by apply (list_elem_of_fmap_2 fst _ (idx, vum)).
    + split; [done|]. rewrite Hrun'. split; [done|]. by apply wellTyped_struct.
  - cbn [fst snd]. split; [done|]. split; [done|]. by apply wellTyped_struct.
Qed.

Lemma struct_decoder_does_not_panic_witness :
  valuesDecodesSafely (itemUnmarshaler Req) Item.
Proof.
  assert (Hstring : decodesSafely stringUnmarshaler TString)
    by (by apply scalar_decoders_are_safe).
  apply (struct_decoder_does_not_panic "Item" ItemDecl).
  - apply (bool_decide_unpack _). vm_compute. exact I.
  - intros fum Hfum. apply list_elem_of_singleton in Hfum as ->.
    exists "Name", TString. split; [reflexivity|exact Hstring].
  - intros idx vum Hin. apply list_elem_of_singleton in Hin.
    inversion Hin; subst idx vum. exists "Base", Base. split; [reflexivity|].
    apply (struct_decoder_does_not_panic "Base" BaseDecl).
    + apply (bool_decide_unpack _). vm_compute. exact I.
    + intros fum Hfum. apply list_elem_of_singleton in Hfum as ->.
      exists "ID", TString. split; [reflexivity|exact Hstring].
    + intros idx vum Hin'. by apply elem_of_nil in Hin'.
Defined.

Lemma marshalFields_do_not_panic n d fs fms :
  typedFields fs d ->
  (forall fm, fm ∈ fms ->
     exists fname ft, d !! FieldIndex fm = Some (fname, ft)
                      /\ encodesSafely (Marshaler_ fm) ft) ->
  forall vs0, marshalFields fms (VStruct n d fs) vs0 <> Panic.
Proof.
  intros Hf. induction fms as [|fm fms IH]; intros Hsafe vs0; simpl; [done|].
  destruct (Hsafe fm) as (fname & ft & Hd & Henc); [apply elem_of_cons; by left|].
  destruct (typedFields_lookup _ _ _ _ _ Hf Hd) as (x & Hx & Ht & Hw).
  rewrite Hx.
  assert (Hrest : forall vs1, marshalFields fms (VStruct n d fs) vs1 <> Panic).
  { apply IH. intros f Hin. apply Hsafe, elem_of_cons. by right. }
  destruct (_ && _); [apply Hrest|].
  pose proof (Henc x Ht Hw) as Hnp.
  destruct (Marshal (Marshaler_ fm) x) as [a [err|]|]; [done|apply Hrest|done].
Qed.

Lemma marshalEmbedded_does_not_panic
    (encode : ValuesMarshaler -> value -> ret (option (gmap string strs)))
    n d fs efs :
  typedFields fs d ->
  (forall idx vm, (idx, vm) ∈ efs ->
     exists fname ft, d !! idx = Some (fname, ft)
       /\ forall x, typeOf x = ft -> wellTyped x = true ->
            encode vm x <> Panic) ->
  forall vs0,
    marshalEmbedded encode (TStruct n d) efs (VStruct n d fs) vs0 <> Panic.
Proof.
  intros Hf. induction efs as [|[idx vm] efs IH]; intros Hsafe vs0; simpl;
    [done|].
  destruct (Hsafe idx vm) as (fname & ft & Hd & Henc);
    [apply elem_of_cons; by left|].
  destruct (typedFields_lookup _ _ _ _ _ Hf Hd) as (x & Hx & Ht & Hw).
  rewrite Hx. pose proof (Henc x Ht Hw) as Hnp.
  destruct (encode vm x) as [evs [err|]|]; [by rewrite Hd| |done].
  apply IH. intros i m Hin. apply Hsafe, elem_of_cons. by right.
Qed.

(** X8. A struct encoder whose entries address fields of the struct type,
    each with an encoder that can be trusted with the declared type of its
    field, does not panic on a value of the struct type. *)
Theorem struct_encoder_does_not_panic
    (n : string) (d : list (string * rtype))
    (efs : list (nat * ValuesMarshaler)) (fms : list fieldMarshaler) :
  (forall fm, fm ∈ fms ->
     exists fname ft, d !! FieldIndex fm = Some (fname, ft)
                      /\ encodesSafely (Marshaler_ fm) ft) ->
  (forall idx vm, (idx, vm) ∈ efs ->
     exists fname ft, d !! idx = Some (fname, ft)
                      /\ valuesEncodesSafely vm ft) ->
  valuesEncodesSafely (structMarshaler (TStruct n d) efs fms) (TStruct n d).
Proof.
  intros Hfms Hefs v Hv Hw.
  destruct v as [| | | | | | | |n' d' fs]; try done. inversion Hv; subst n' d'.
  apply wellTyped_struct in Hw.
  cbn [MarshalValues typeOf]. rewrite type_check_passes.
  pose proof (marshalFields_do_not_panic n d fs fms Hw Hfms ∅) as Hnp.
  destruct (marshalFields fms (VStruct n d fs) ∅) as [vs [err|]|];
    [done| |done].
  apply marshalEmbedded_does_not_panic; [done|].
  intros idx vm Hin. destruct (Hefs idx vm Hin) as (fname & ft & Hd & Hs).
  exists fname, ft. split; [done|]. intros x Ht Hxw. by apply Hs.
Qed.

Lemma struct_encoder_does_not_panic_witness :
  valuesEncodesSafely itemMarshaler Item.
Proof.
  assert (Hstring : encodesSafely stringMarshaler TString)
    by (by apply scalar_encoders_are_safe).
  apply (struct_encoder_does_not_panic "Item" ItemDecl).
  - intros fm Hfm. apply list_elem_of_singleton in Hfm as ->.
    exists "Name", TString. split; [reflexivity|exact Hstring].
  - intros idx vm Hin. apply list_elem_of_singleton in Hin.
    inversion Hin; subst idx vm. exists "Base", Base. split; [reflexivity|].
    apply (struct_encoder_does_not_panic "Base" BaseDecl).
    + intros fm Hfm. apply list_elem_of_singleton in Hfm as ->.
      exists "ID", TString. split; [reflexivity|exact Hstring].
    + intros idx vm Hin'. by apply elem_of_nil in Hin'.
Defined.

(** ** The caches over any run of requests *)

Section CacheRunProperties.
Context {T : Type} `{Countable T}.
Context {M : Type} (isNil : M -> bool) (nilM : M).
Context (asCodec : error -> option M).
Context {S : Type} (wrapped : S -> T -> S * (M * option error)).

(** What a request changes: nothing on a hit; on a miss the wrapped
    factory is invoked once and the type gets its entry, and no other
    entry is touched. *)
Lemma lookupOrCreate_step (o : cacheOf) (t : T) :
  let o' := (lookupOrCreate isNil nilM asCodec wrapped o t).2 in
  (forall it, cache o !! t = Some it -> o' = o)
  /\ (cache o !! t = None ->
      wrappedState o' = (wrapped (wrappedState o) t).1
      /\ is_Some (cache o' !! t)
      /\ forall t', t' <> t -> cache o' !! t' = cache o !! t').
Proof.
  unfold lookupOrCreate, Load, Store. split.
  - intros it Hit. rewrite Hit.
    destruct (assertCodec asCodec it); [done|]. by destruct it.
  - intros Hmiss. rewrite Hmiss.
    destruct (wrapped (wrappedState o) t) as [s' [m err]]. simpl.
    split; [done|]. split.
    + rewrite lookup_insert_eq. by eexists.
    + intros t' Hne. by rewrite lookup_insert_ne.
Qed.

(** What a hit returns. *)
Lemma lookupOrCreate_hit (o : cacheOf) (t : T) (it : item) :
  cache o !! t = Some it ->
  lookupOrCreate isNil nilM asCodec wrapped o t
  = (match assertCodec asCodec it with
     | Some m => Return m None
     | None =>
         match it with
         | itemError err => Return nilM (Some err)
         | _ => Panic
         end
     end, o).
Proof.
  intros Hit. unfold lookupOrCreate, Load. rewrite Hit.
  destruct (assertCodec asCodec it); [done|]. by destruct it.
Qed.

Lemma requests_keep_entries (ts : list T) :
  forall (o : cacheOf) t it,
    cache o !! t = Some it ->
    cache (requests isNil nilM asCodec wrapped o ts) !! t = Some it.
Proof.
  induction ts as [|t' ts IH]; intros o t it Hit; simpl; [done|].
  apply IH. destruct (lookupOrCreate_step o t') as [Hhit Hmiss].
  destruct (cache o !! t') as [it'|] eqn:Hit'.
  - by rewrite (Hhit it' eq_refl).
  - destruct (Hmiss eq_refl) as (_ & _ & Hother). rewrite Hother; [done|].
    intros ->. congruence.
Qed.

(** X10. An answer of a cache is final: once a request for a type has
    returned a non-nil codec, or an error, every later request for that
    type, after any run of requests for this and other types, returns
    the same codec, or the same error with the nil codec (the error value
    as a codec and no error, when it is one), and neither invokes the
    wrapped factory nor changes the cache. *)
Theorem cache_answer_is_final
    (o : cacheOf) (t : T) (ts : list T) (m : M) (err : option error) :
  (lookupOrCreate isNil nilM asCodec wrapped o t).1 = Return m err ->
  (err = None -> isNil m = false) ->
  let o1 := requests isNil nilM asCodec wrapped
              (lookupOrCreate isNil nilM asCodec wrapped o t).2 ts in
  lookupOrCreate isNil nilM asCodec wrapped o1 t
  = (match err with
     | None => Return m None
     | Some e =>
         match asCodec e with
         | Some m' => Return m' None
         | None => Return nilM (Some e)
         end
     end, o1).
Proof.
  intros Hret Hnil.
  assert (Hentry : exists it,
            cache (lookupOrCreate isNil nilM asCodec wrapped o t).2 !! t
            = Some it
            /\ match assertCodec asCodec it with
               | Some m => Return m None
               | None =>
                   match it with
                   | itemError err => Return nilM (Some err)
                   | _ => Panic
                   end
               end
               = match err with
                 | None => Return m None
                 | Some e =>
                     match asCodec e with
                     | Some m' => Return m' None
                     | None => Return nilM (Some e)
                     end
                 end).
  { destruct (cache o !! t) as [it|] eqn:Hit.
    - rewrite (lookupOrCreate_hit o t it Hit) in Hret |- *. simpl in Hret |- *.
      exists it. split; [done|]. rewrite Hret.
      destruct err as [e|]; [|done].
      destruct (assertCodec asCodec it) as [m'|] eqn:Has; [done|].
      destruct it as [|m'|e']; try done. simpl in Has.
      inversion Hret; subst. by rewrite Has.
    - revert Hret. unfold lookupOrCreate, Load, Store. rewrite Hit.
      destruct (wrapped (wrappedState o) t) as [s' [m' err']]. simpl.
      intros Hret. inversion Hret; subst m' err'. rewrite lookup_insert_eq.
      destruct err as [e|].
      + exists (itemError e). done.
      + exists (itemCodec m). unfold ofCodec. by rewrite Hnil. }
  destruct Hentry as (it & Hit & Hserved).
  cbv zeta. apply (requests_keep_entries ts) in Hit.
  by rewrite (lookupOrCreate_hit _ t it Hit), Hserved.
Qed.

End CacheRunProperties.

Lemma cache_answer_is_final_witness :
  let wrapped := fakeMarshalerFactory stringMarshaler None in
  let o1 := requests isNilMarshaler nilMarshaler noCodec wrapped
              (marshalerCache_Marshaler noCodec wrapped (newCache []) TString).2
              [TBool; TString; TInt W64] in
  marshalerCache_Marshaler noCodec wrapped o1 TString
  = (Return stringMarshaler None, o1).
Proof.
  apply (cache_answer_is_final isNilMarshaler nilMarshaler noCodec
           (fakeMarshalerFactory stringMarshaler None)
           (newCache []) TString [TBool; TString; TInt W64]
           stringMarshaler None).
  - vm_compute. reflexivity.
  - reflexivity.
Defined.

Section CacheLogProperties.
Context {T : Type} `{Countable T}.
Context {M : Type} (isNil : M -> bool) (nilM : M).
Context (asCodec : error -> option M).
Context {S : Type} (wrapped : S -> T -> S * (M * option error)).

Lemma logging_log (sl : S * list T) (t : T) :
  (logging wrapped sl t).1.2 = sl.2 ++ [t].
Proof.
  destruct sl as [s calls]. unfold logging.
  by destruct (wrapped s t) as [s' r].
Qed.

Lemma requests_invariant (ts : list T) :
  forall o : cacheOf,
    NoDup (wrappedState o).2 ->
    (forall t, t ∈ (wrappedState o).2 <-> is_Some (cache o !! t)) ->
    let o' := requests isNil nilM asCodec (logging wrapped) o ts in
    NoDup (wrappedState o').2
    /\ (forall t, t ∈ (wrappedState o').2 <-> is_Some (cache o' !! t))
    /\ (forall t, t ∈ (wrappedState o').2
                  <-> t ∈ (wrappedState o).2 \/ t ∈ ts).
Proof.
  induction ts as [|t ts IH]; intros o Hnd Hdom; simpl.
  { split; [done|]. split; [done|]. intros t. rewrite elem_of_nil. tauto. }
  destruct (lookupOrCreate_step isNil nilM asCodec (logging wrapped) o t)
    as [Hhit Hmiss].
  destruct (cache o !! t) as [it|] eqn:Hit.
  - rewrite (Hhit it eq_refl).
    destruct (IH o Hnd Hdom) as (H1 & H2 & H3).
    split; [done|]. split; [done|]. intros t'. rewrite H3, elem_of_cons.
    split; [tauto|]. intros [?|[->|?]]; [tauto| |tauto].
    left. apply Hdom. by rewrite Hit.
  - destruct (Hmiss eq_refl) as (Hstate & Hnew & Hother).
    assert (Hcalls :
      (wrappedState
         (lookupOrCreate isNil nilM asCodec (logging wrapped) o t).2).2
      = (wrappedState o).2 ++ [t]).
    { by rewrite Hstate, logging_log. }
    destruct (IH (lookupOrCreate isNil nilM asCodec (logging wrapped) o t).2)
      as (H1 & H2 & H3).
    + rewrite Hcalls. apply NoDup_app. split; [done|]. split.
      * intros t' Hin Hin'. apply list_elem_of_singleton in Hin' as ->.
        apply Hdom in Hin. rewrite Hit in Hin. by destruct Hin.
      * apply NoDup_singleton.
    + intros t'. rewrite Hcalls, elem_of_app, list_elem_of_singleton.
      destruct (decide (t' = t)) as [->|Hne]; [tauto|].
      rewrite Hother by done. rewrite Hdom. tauto.
    + split; [done|]. split; [done|]. intros t'.
      rewrite H3, Hcalls, elem_of_app, list_elem_of_singleton, elem_of_cons.
      tauto.
Qed.

(** X9. Whatever the requests made to a new cache, and in whatever order,
    the wrapped factory is invoked exactly once for each type that was
    requested and for no other type: that is what the log of its
    invocations holds. Every requested type, and no other, has an entry
    in the map. *)
Theorem cache_invokes_factory_once_per_type (s : S) (ts : list T) :
  let o := requests isNil nilM asCodec (logging wrapped) (newCache (s, [])) ts in
  NoDup (wrappedState o).2
  /\ (forall t, t ∈ (wrappedState o).2 <-> t ∈ ts)
  /\ (forall t, is_Some (cache o !! t) <-> t ∈ ts).
Proof.
  destruct (requests_invariant ts (newCache (s, []))) as (H1 & H2 & H3).
  - apply NoDup_nil_2.
  - intros t. simpl. unfold newSyncMap. rewrite lookup_empty, elem_of_nil.
    split; [done|]. intros [x Hx]. done.
  - simpl in H3. cbv zeta. split; [done|].
    assert (Hcalls : forall t,
              t ∈ (wrappedState
                     (requests isNil nilM asCodec (logging wrapped)
                        (newCache (s, [])) ts)).2 <-> t ∈ ts).
    { intros t. rewrite H3, elem_of_nil. tauto. }
    split; [done|]. intros t. by rewrite <- H2.
Qed.

End CacheLogProperties.

Lemma cache_invokes_factory_once_per_type_witness :
  NoDup (wrappedState
           (requests isNilMarshaler nilMarshaler noCodec
              (logging (fakeMarshalerFactory stringMarshaler None))
              (newCache ([], [])) [TString; TBool; TString; TBool])).2.
Proof.
  apply (cache_invokes_factory_once_per_type isNilMarshaler nilMarshaler
           noCodec (fakeMarshalerFactory stringMarshaler None) []
           [TString; TBool; TString; TBool]).
Defined.
